(** * gomote create: the builder catalog and the multi-instance orchestrator

    A shallow embedding of [builders], [legacyCreate] and [create] of the
    gomote [create] subcommand and of the walk function of
    [update-readmes.go], and the properties of the design document checked
    on it.

    Go values are modelled as follows.
    - [string] is a Rocq [string]; the Go operator [<] on strings is the
      bytewise lexicographic order, [String.ltb].
    - [int] is [Z].
    - [error] is the text of the error ([nil] is [None]).
    - a [map[string]T] is a [gmap string T]; the order in which [range]
      visits its entries is not fixed by the language, so it is a
      parameter: any list that is a permutation of the entries.
    - library calls whose result depends on the outside world (HTTP, the
      provisioning RPC, push, run, the group store) are answered by an
      environment record that holds the results observed, and the lines
      that the setup steps write to the standard output and error while
      they run. *)

From Stdlib Require Import ZArith String Ascii.
From stdpp Require Import gmap strings list sorting pretty.

Set Warnings "-clear-no-such-hyp".

Local Open Scope string_scope.
Local Open Scope list_scope.
Local Open Scope Z_scope.

Definition error := string.

(** ** Go library functions used by the source *)

(** [strings.HasPrefix(s, prefix)]. *)
Definition HasPrefix (s prefix : string) : bool := String.prefix prefix s.

(** [strings.Contains(s, substr)]: [substr] occurs at some offset of [s]. *)
Fixpoint Contains (s substr : string) : bool :=
  String.prefix substr s ||
  match s with
  | EmptyString => false
  | String _ s' => Contains s' substr
  end.

(** [sort.Slice(x, less)]: the library sort. The callers rely on its contract
    alone (the slice is permuted so that [less] orders it); it is modelled
    by insertion, each element going in front of the first one that is not
    below it. *)
Fixpoint sort_insert {A} (less : A → A → bool) (x : A) (l : list A) : list A :=
  match l with
  | [] => [x]
  | y :: l' => if less y x then y :: sort_insert less x l' else x :: l
  end.

Fixpoint sort_Slice {A} (less : A → A → bool) (l : list A) : list A :=
  match l with
  | [] => []
  | x :: l' => sort_insert less x (sort_Slice less l')
  end.

(** [x] may stand before [y] in a slice that [less] orders. *)
Definition not_after {A} (less : A → A → bool) (x y : A) : Prop := less y x = false.

(** [log.Fatal] ends the process: a function that may call it either
    returns or is fatal. *)
Inductive outcome (A : Type) : Type :=
| Returned (a : A)
| Fatal (msg : string).
Arguments Returned {A} a.
Arguments Fatal {A} msg.

(** ** The builder catalog: [builders] *)

Module Catalog.

Record builderType := {
  Name : string;
  IsReverse : bool;
  ExpectNum : Z
}.

Record builderInfo := { HostType : string }.

Record hostInfo := {
  hi_IsReverse : bool;
  hi_ExpectNum : Z;
  ContainerImage : string;
  VMImage : string
}.

(** [resj], the decoded response. *)
Record resj := {
  Builders : gmap string builderInfo;
  Hosts : gmap string hostInfo
}.

(** What [http.Get] returned: the status and what decoding the body gives. *)
Record response := {
  StatusCode : Z;
  Status : string;
  Body : error + resj
}.

(** The body of the [range resj.Builders] loop, for one entry. *)
Definition visit (hosts : gmap string hostInfo) (bt : list builderType)
    (b : string) (bi : builderInfo) : list builderType :=
  if HasPrefix b "misc-compile" then bt
  else match hosts !! HostType bi with
       | None => bt
       | Some hi =>
         if negb (hi_IsReverse hi) && (ContainerImage hi =? "")%string
            && (VMImage hi =? "")%string
         then bt
         else bt ++ [ {| Name := b;
                         IsReverse := hi_IsReverse hi;
                         ExpectNum := hi_ExpectNum hi |} ]
       end.

(** The loop, over the entries in the order [range] visits them. *)
Fixpoint range_Builders (hosts : gmap string hostInfo)
    (entries : list (string * builderInfo)) (bt : list builderType)
    : list builderType :=
  match entries with
  | [] => bt
  | (b, bi) :: rest => range_Builders hosts rest (visit hosts bt b bi)
  end.

(** [func(i, j int) bool { return bt[i].Name < bt[j].Name }] *)
Definition less (x y : builderType) : bool := (Name x <? Name y)%string.

(** [builders] once the response is decoded. *)
Definition builders_of (r : resj) (entries : list (string * builderInfo))
    : list builderType :=
  sort_Slice less (range_Builders (Hosts r) entries []).

(** [builders]: [get] is the result of [http.Get], [order] maps a decoded
    map to the order in which [range] goes through it. *)
Definition builders (get : error + response)
    (order : gmap string builderInfo → list (string * builderInfo))
    : outcome (list builderType) :=
  match get with
  | inl err => Fatal err
  | inr res =>
    if negb (StatusCode res =? 200) then
      Fatal ("fetching builder types: " +:+ Status res)
    else match Body res with
         | inl err => Fatal ("decoding builder types: " +:+ err)
         | inr r => Returned (builders_of r (order (Builders r)))
         end
  end.

(** A builder passes the filter of the loop. *)
Definition kept (r : resj) (b : string) (bi : builderInfo) (hi : hostInfo) : Prop :=
  Builders r !! b = Some bi ∧
  HasPrefix b "misc-compile" = false ∧
  Hosts r !! HostType bi = Some hi ∧
  (hi_IsReverse hi = true ∨ ContainerImage hi ≠ "" ∨ VMImage hi ≠ "").

(** What the loop keeps of one entry, if anything. *)
Definition keep (hosts : gmap string hostInfo) (e : string * builderInfo)
    : option builderType :=
  last (visit hosts [] e.1 e.2).

(** Ascending order of the names, the order [less] asks for. *)
Definition name_lt (x y : builderType) : Prop := (Name x <? Name y)%string = true.


(** A response to try [builders] on: one usable container builder, one
    reverse builder, a compile-only builder, a builder whose host has no
    image, and a builder whose host type is not listed. *)
Definition sample_resj : resj :=
  {| Builders :=
       {[ "linux-amd64" := {| HostType := "host-linux" |};
          "darwin-arm64" := {| HostType := "host-darwin" |};
          "misc-compile-mips" := {| HostType := "host-linux" |};
          "plan9-386" := {| HostType := "host-plan9" |};
          "aix-ppc64" := {| HostType := "host-aix" |} ]};
     Hosts :=
       {[ "host-linux" := {| hi_IsReverse := false; hi_ExpectNum := 0;
                             ContainerImage := "gcr.io/linux"; VMImage := "" |};
          "host-darwin" := {| hi_IsReverse := true; hi_ExpectNum := 3;
                              ContainerImage := ""; VMImage := "" |};
          "host-plan9" := {| hi_IsReverse := false; hi_ExpectNum := 0;
                             ContainerImage := ""; VMImage := "" |} ]} |}.

Definition sample_response : response :=
  {| StatusCode := 200; Status := "200 OK"; Body := inr sample_resj |}.

Definition sample_builders : list builderType :=
  [ {| Name := "darwin-arm64"; IsReverse := true; ExpectNum := 3 |};
    {| Name := "linux-amd64"; IsReverse := false; ExpectNum := 0 |} ].

End Catalog.

(** ** The orchestrator: [create] *)

Module Gomote.

(** Modelled from the spec: the status of a [protos.CreateInstanceResponse]
    (the generated protocol package is not part of the sources); an update
    is pending or complete. *)
Inductive CreateInstanceResponse_Status := PENDING | COMPLETE.

Global Instance status_eq_dec : EqDecision CreateInstanceResponse_Status.
Proof. solve_decision. Defined.

(** An update of the stream. [Instance] may be absent: the generated getters
    then give the empty string. *)
Record CreateInstanceResponse := {
  GetStatus : CreateInstanceResponse_Status;
  GetWaitersAhead : Z;
  GetInstance : option string
}.

Definition GetGomoteId (instance : option string) : string := default "" instance.

(** One result of [stream.Recv] other than [io.EOF]. A stream is the list of
    the results its reader gets, in order; a read of the exhausted stream
    gives [io.EOF]. An error that the cancellation of the shared context
    causes is an error of the stream like any other. *)
Inductive recv :=
| RecvUpdate (update : CreateInstanceResponse)
| RecvError (err : error).

(** [groupData]: a named sequence of instance identifiers. *)
Record groupData := {
  Name : string;
  Instances : list string
}.

(** The command line once parsed. *)
Record flags := {
  status : bool;
  count : Z;
  setup : bool;
  newGroup : string;
  builderType : string
}.

(** What the collaborators answer to task [i]. *)
Record taskEnv := {
  rpc_CreateInstance : option error;
  rpc_stream : list recv;
  res_getGOROOT : string + error;
  res_doPush : option error;
  res_doRun : option error
}.

(** Calls to the collaborators, with the task that makes them. *)
Inductive call :=
| CreateInstance (i : nat) (builderType : string)
| Recv (i : nat)
| getGOROOT (i : nat)
| doPush (i : nat) (inst goroot : string) (dryRun detailedProgress : bool)
| doRun (i : nat) (inst tmpOutDir cmd : string) (args : list string)
        (detailedProgress : bool)
| storeGroup (g : groupData).

(** A line that a collaborator writes while it runs, to the standard output
    or to the standard error. *)
Inductive written :=
| ToStdout (s : string)
| ToStderr (s : string).

(** What the outside world answers during one invocation. [statusFromError]
    is a helper of the command that is not part of the sources, turning an
    RPC error into its status text. [getGOROOT], [doPush] and [doRun] are
    not part of the sources either: they run in the process of the command,
    the last two are told how much progress to report, and [progress] gives
    the lines that such a call writes while it runs, whatever they are. *)
Record environment := {
  statusFromError : error → string;
  res_MkdirTemp : string + error;
  res_doCreateGroup : string → groupData + error;
  res_storeGroup : groupData → option error;
  tasks : nat → taskEnv;
  progress : call → list written
}.

(** Lines on the standard error: those [create] writes itself, and those
    of the setup steps. The elapsed time of the progress line is wall-clock
    time and is left out. *)
Inductive stderr_line :=
| StillCreating (builderType : string) (n : Z) (waitersAhead : Z)
| PushingGOROOT (goroot inst : string)
| Running (cmd inst : string)
| Written (s : string).

(** What a task does to the state it shares with the other tasks, one
    indivisible step at a time. [Stderr] and [Println] are the writes of
    [create] itself, [Write] a line written by a setup step; [Append] is
    the append under [groupMu]; [Return] is the end of the closure given to
    [eg.Go], where the error group keeps the error if it is the first. *)
Inductive action :=
| Call (c : call)
| Stderr (l : stderr_line)
| Println (s : string)
| Append (inst : string)
| Return (i : nat) (err : option error)
| Write (o : written).

(** A task computes a value and lists, in order, the actions it takes. *)
Definition Task (A : Type) : Type := list action * A.

Global Instance Task_ret : MRet Task := λ A a, ([], a).
Global Instance Task_bind : MBind Task := λ A B k m,
  let '(acts, a) := m in
  let '(acts', b) := k a in
  (acts ++ acts', b).
Definition tell (a : action) : Task unit := ([a], tt).
Definition tells (acts : list action) : Task unit := (acts, tt).
Definition when (b : bool) (m : Task unit) : Task unit := if b then m else mret tt.

(** [fmt.Errorf("failed to create buildlet: %v", ...)] and
    [fmt.Errorf("failed to create buildlet (%d): %v", i+1, ...)]. *)
Definition Errorf_create (st : string) : error :=
  "failed to create buildlet: " +:+ st.
Definition Errorf_create_n (n : Z) (st : string) : error :=
  "failed to create buildlet (" +:+ pretty n +:+ "): " +:+ st.

Section task.
Context (fl : flags) (env : environment).
Context (group_set : bool) (tmpOutDir : string) (i : nat).

(** The loop labelled [updateLoop]; [inst] is the variable of that name.
    It ends with the identifier to use, or with the error to return. *)
Fixpoint updateLoop (stream : list recv) (inst : string)
    : Task (string + error) :=
  match stream with
  | [] => tell (Call (Recv i)) ;; mret (inl inst)
  | RecvError err :: _ =>
    tell (Call (Recv i)) ;;
    mret (inr (Errorf_create_n (Z.of_nat i + 1) (statusFromError env err)))
  | RecvUpdate update :: rest =>
    tell (Call (Recv i)) ;;
    if bool_decide (GetStatus update ≠ COMPLETE) && status fl then
      tell (Stderr (StillCreating (builderType fl) (Z.of_nat i + 1)
                                  (GetWaitersAhead update))) ;;
      updateLoop rest inst
    else if bool_decide (GetStatus update = COMPLETE) then
      updateLoop rest (GetGomoteId (GetInstance update))
    else updateLoop rest inst
  end.

(** A call to a setup step: the call, then the lines it writes while it
    runs. *)
Definition invoke (c : call) : Task unit :=
  tell (Call c) ;; tells (Write <$> progress env c).

(** Lines 225 to 246: what follows the creation of instance [inst]. *)
Definition setup_instance (te : taskEnv) (inst : string) : Task (option error) :=
  if negb (setup fl) then mret None
  else
    let detailedProgress := (count fl =? 1) in
    invoke (getGOROOT i) ;;
    match res_getGOROOT te with
    | inr err => mret (Some err)
    | inl goroot =>
      when (negb detailedProgress) (tell (Stderr (PushingGOROOT goroot inst))) ;;
      invoke (doPush i inst goroot false detailedProgress) ;;
      match res_doPush te with
      | Some err => mret (Some err)
      | None =>
        let cmd := if Contains (builderType fl) "windows"
                   then "go/src/make.bat" else "go/src/make.bash" in
        when (negb detailedProgress) (tell (Stderr (Running cmd inst))) ;;
        invoke (doRun i inst tmpOutDir cmd [] (count fl =? 1)) ;;
        mret (res_doRun te)
      end
    end.

(** The closure given to [eg.Go] for index [i]. *)
Definition task : Task (option error) :=
  let te := tasks env i in
  tell (Call (CreateInstance i (builderType fl))) ;;
  match rpc_CreateInstance te with
  | Some err => mret (Some (Errorf_create (statusFromError env err)))
  | None =>
    r ← updateLoop (rpc_stream te) "" ;
    match r with
    | inr err => mret (Some err)
    | inl inst =>
      tell (Println inst) ;;
      when group_set (tell (Append inst)) ;;
      setup_instance te inst
    end
  end.

(** [eg.Go(task)]: the goroutine runs the closure, then hands its result
    to the error group. *)
Definition eg_Go : list action :=
  let '(acts, err) := task in acts ++ [Return i err].
End task.

(** The state the tasks share. [stdout] and [stderr] are the two streams
    of the process, with all that is written to them: by [create] and by
    the setup steps it calls. [group] is the object the variable of that
    name points to ([None]: a nil pointer); [eg_err] the error kept by the
    error group; [calls] and [returned] record the calls made and the tasks
    that have returned, in order. *)
Record world := {
  stdout : list string;
  stderr : list stderr_line;
  group : option groupData;
  eg_err : option error;
  calls : list call;
  returned : list (nat * option error)
}.

Definition append_instance (inst : string) (g : groupData) : groupData :=
  {| Name := Name g; Instances := Instances g ++ [inst] |}.

Definition apply (w : world) (a : action) : world :=
  match a with
  | Call c =>
    {| stdout := stdout w; stderr := stderr w; group := group w;
       eg_err := eg_err w; calls := calls w ++ [c]; returned := returned w |}
  | Stderr l =>
    {| stdout := stdout w; stderr := stderr w ++ [l]; group := group w;
       eg_err := eg_err w; calls := calls w; returned := returned w |}
  | Println s =>
    {| stdout := stdout w ++ [s]; stderr := stderr w; group := group w;
       eg_err := eg_err w; calls := calls w; returned := returned w |}
  | Append inst =>
    {| stdout := stdout w; stderr := stderr w;
       group := append_instance inst <$> group w;
       eg_err := eg_err w; calls := calls w; returned := returned w |}
  | Return i err =>
    {| stdout := stdout w; stderr := stderr w; group := group w;
       eg_err := match eg_err w with Some e => Some e | None => err end;
       calls := calls w; returned := returned w ++ [(i, err)] |}
  | Write (ToStdout s) =>
    {| stdout := stdout w ++ [s]; stderr := stderr w; group := group w;
       eg_err := eg_err w; calls := calls w; returned := returned w |}
  | Write (ToStderr s) =>
    {| stdout := stdout w; stderr := stderr w ++ [Written s]; group := group w;
       eg_err := eg_err w; calls := calls w; returned := returned w |}
  end.

(** The tasks run concurrently: their actions happen in some interleaving.
    A schedule names, step after step, the task that moves; a step of a
    task that has returned (or of no task) is void. [qs] holds what each
    task has still to do. *)
Fixpoint run (sched : list nat) (qs : list (list action)) (w : world)
    : list (list action) * world :=
  match sched with
  | [] => (qs, w)
  | i :: sched' =>
    match qs !! i with
    | Some (a :: q) => run sched' (<[i := q]> qs) (apply w a)
    | _ => run sched' qs w
    end
  end.

(** The interleavings of the actions of the tasks: at each step some task
    that has not returned takes its next action. *)
Inductive interleaving : list (list action) → list action → Prop :=
| interleaving_end qs :
    concat qs = [] → interleaving qs []
| interleaving_step qs i a q m :
    qs !! i = Some (a :: q) →
    interleaving (<[i := q]> qs) m →
    interleaving qs (a :: m).

(** [eg.Wait()] returns once every task has returned: tasks that the
    schedule leaves unfinished run to their end, one after the other. It
    gives the error the group kept. *)
Definition eg_Wait (st : list (list action) * world) : option error * world :=
  let w := foldl apply st.2 (concat st.1) in (eg_err w, w).

Definition init (group : option groupData) : world :=
  {| stdout := []; stderr := []; group := group; eg_err := None;
     calls := []; returned := [] |}.

Definition call_storeGroup (g : groupData) (w : world) : world :=
  {| stdout := stdout w; stderr := stderr w; group := group w;
     eg_err := eg_err w; calls := calls w ++ [storeGroup g];
     returned := returned w |}.

(** The indices [i] of the loop [for i := 0; i < count; i++]. *)
Definition indices (fl : flags) : list nat := seq 0 (Z.to_nat (count fl)).

(** Lines 194 to 256 of [create], the orchestrator proper, which the design
    calls [Create(builderType, count, setup, group)]. *)
Definition Create (fl : flags) (env : environment) (group : option groupData)
    (tmpOutDir : string) (sched : list nat) : option error * world :=
  let qs := eg_Go fl env (bool_decide (group ≠ None)) tmpOutDir
              <$> indices fl in
  let '(err, w) := eg_Wait (run sched qs (init group)) in
  match err with
  | Some err => (Some err, w)
  | None =>
    match Gomote.group w with
    | Some g => (res_storeGroup env g, call_storeGroup g w)
    | None => (None, w)
    end
  end.

(** [create] from the parsed flags on. *)
Definition create (fl : flags) (env : environment)
    (activeGroup : option groupData) (sched : list nat)
    : option error * option world :=
  let tmp : string + error :=
    if setup fl then
      match res_MkdirTemp env with
      | inl dir => inl dir
      | inr err =>
        inr ("failed to create a temporary directory for setup output: " +:+ err)
      end
    else inl "" in
  match tmp with
  | inr err => (Some err, None)
  | inl tmpOutDir =>
    let group : option groupData + error :=
      if bool_decide (newGroup fl ≠ "") then
        match res_doCreateGroup env (newGroup fl) with
        | inl g => inl (Some g)
        | inr err => inr err
        end
      else inl activeGroup in
    match group with
    | inr err => (Some err, None)
    | inl group =>
      let '(err, w) := Create fl env group tmpOutDir sched in (err, Some w)
    end
  end.


(** *** Reading a run *)

(** The effect of one action on each part of the shared state. *)
Definition to_stdout (o : written) : option string :=
  match o with ToStdout s => Some s | ToStderr _ => None end.
Definition to_stderr (o : written) : option stderr_line :=
  match o with ToStderr s => Some (Written s) | ToStdout _ => None end.
Definition printed (a : action) : option string :=
  match a with
  | Println s => Some s
  | Write o => to_stdout o
  | _ => None
  end.
Definition appended (a : action) : option string :=
  match a with Append inst => Some inst | _ => None end.
Definition called (a : action) : option call :=
  match a with Call c => Some c | _ => None end.
Definition handed (a : action) : option (nat * option error) :=
  match a with Return i err => Some (i, err) | _ => None end.

(** The first error in a sequence of returns. *)
Fixpoint first_error (rs : list (nat * option error)) : option error :=
  match rs with
  | [] => None
  | (_, Some err) :: _ => Some err
  | (_, None) :: rs' => first_error rs'
  end.

(** Kinds of calls. *)
Definition is_getGOROOT (i : nat) (c : call) : bool :=
  match c with getGOROOT j => bool_decide (j = i) | _ => false end.
Definition is_doPush (i : nat) (c : call) : bool :=
  match c with doPush j _ _ _ _ => bool_decide (j = i) | _ => false end.
Definition is_doRun (i : nat) (c : call) : bool :=
  match c with doRun j _ _ _ _ _ => bool_decide (j = i) | _ => false end.
Definition is_storeGroup (c : call) : bool :=
  match c with storeGroup _ => true | _ => false end.

(** The calls of a kind among those made, and whether there is one. *)
Definition calls_of (kind : call → bool) (w : world) : list call :=
  filter (λ c, kind c = true) (calls w).
Definition invoked (kind : call → bool) (w : world) : bool :=
  existsb kind (calls w).

(** The identifiers that the COMPLETE updates of a stream carry, in order,
    and whether the stream ends without an error. *)
Definition complete_id (r : recv) : option string :=
  match r with
  | RecvUpdate update =>
    if bool_decide (GetStatus update = COMPLETE)
    then Some (GetGomoteId (GetInstance update)) else None
  | RecvError _ => None
  end.
Definition is_update (r : recv) : bool :=
  match r with RecvUpdate _ => true | RecvError _ => false end.

(** The identifier task [i] has once its stream is read to the end. *)
Definition recorded (env : environment) (i : nat) : string :=
  default "" (last (omap complete_id (rpc_stream (tasks env i)))).

(** The creation of instance [i] meets no error: neither the call nor a
    read of the stream fails. *)
Definition creation_ok (env : environment) (i : nat) : bool :=
  bool_decide (rpc_CreateInstance (tasks env i) = None)
  && forallb is_update (rpc_stream (tasks env i)).

(** The setup steps, when asked for, meet no error. *)
Definition goroot_ok (env : environment) (i : nat) : bool :=
  match res_getGOROOT (tasks env i) with inl _ => true | inr _ => false end.
Definition push_ok (env : environment) (i : nat) : bool :=
  bool_decide (res_doPush (tasks env i) = None).
Definition run_ok (env : environment) (i : nat) : bool :=
  bool_decide (res_doRun (tasks env i) = None).

(** The build script for the builder type asked for. *)
Definition make_script (fl : flags) : string :=
  if Contains (builderType fl) "windows"
  then "go/src/make.bat" else "go/src/make.bash".

(** The calls of the setup steps of task [i], as far as they get. *)
Definition setup_calls (fl : flags) (env : environment) (tmpOutDir : string)
    (i : nat) : list call :=
  if setup fl then
    getGOROOT i ::
    match res_getGOROOT (tasks env i) with
    | inr _ => []
    | inl goroot =>
      doPush i (recorded env i) goroot false (count fl =? 1) ::
      match res_doPush (tasks env i) with
      | Some _ => []
      | None => [doRun i (recorded env i) tmpOutDir (make_script fl) []
                       (count fl =? 1)]
      end
    end
  else [].

(** The lines the setup steps of task [i] write, and the lines the task
    leaves on the standard output when its instance is created: the
    identifier it prints itself, then those of its setup steps. *)
Definition setup_written (fl : flags) (env : environment) (tmpOutDir : string)
    (i : nat) : list written :=
  setup_calls fl env tmpOutDir i ≫= progress env.
Definition task_stdout (fl : flags) (env : environment) (tmpOutDir : string)
    (i : nat) : list string :=
  if creation_ok env i
  then recorded env i :: omap to_stdout (setup_written fl env tmpOutDir i)
  else [].

(** Task [i] goes through its whole pipeline without error. *)
Definition pipeline_ok (fl : flags) (env : environment) (i : nat) : bool :=
  creation_ok env i
  && (negb (setup fl) || goroot_ok env i && push_ok env i && run_ok env i).

(** What task [i] returns. *)
Definition task_result (fl : flags) (env : environment) (group_set : bool)
    (tmpOutDir : string) (i : nat) : option error :=
  (task fl env group_set tmpOutDir i).2.

(** Every task returns nil. *)
Definition all_nil (fl : flags) (env : environment)
    (group : option groupData) (tmpOutDir : string) : bool :=
  forallb (λ i, bool_decide
                  (task_result fl env (bool_decide (group ≠ None)) tmpOutDir i
                   = None))
          (indices fl).


(** *** Scenarios *)

Definition pending (ahead : Z) : recv :=
  RecvUpdate {| GetStatus := PENDING; GetWaitersAhead := ahead;
                GetInstance := None |}.
Definition complete (id : string) : recv :=
  RecvUpdate {| GetStatus := COMPLETE; GetWaitersAhead := 0;
                GetInstance := Some id |}.

(** A task whose stream is [stream] and whose setup steps succeed. *)
Definition streaming (stream : list recv) : taskEnv :=
  {| rpc_CreateInstance := None; rpc_stream := stream;
     res_getGOROOT := inl "/usr/local/go";
     res_doPush := None; res_doRun := None |}.

(** An instance that comes up after one progress update. *)
Definition comes_up (id : string) : taskEnv :=
  streaming [pending 2; complete id].

(** An invocation where task [i] gets the answers [ts !! i] and
    [storeGroup] answers [store]. *)
Definition answering (ts : list taskEnv) (store : option error) : environment :=
  {| statusFromError := λ err, err;
     res_MkdirTemp := inl "/tmp/gomote1";
     res_doCreateGroup := λ name, inl {| Name := name; Instances := [] |};
     res_storeGroup := λ _, store;
     tasks := λ i, default (streaming []) (ts !! i);
     progress := λ _, [] |}.

(** The same, with setup steps that report: push says on the standard
    error where it pushes, and run, when asked for detail, shows the
    output of the command on the standard output. *)
Definition reporting (ts : list taskEnv) (store : option error) : environment :=
  {| statusFromError := λ err, err;
     res_MkdirTemp := inl "/tmp/gomote1";
     res_doCreateGroup := λ name, inl {| Name := name; Instances := [] |};
     res_storeGroup := λ _, store;
     tasks := λ i, default (streaming []) (ts !! i);
     progress := λ c,
       match c with
       | doPush _ inst _ _ _ => [ToStderr ("# pushing to " +:+ inst)]
       | doRun _ _ _ _ _ true =>
         [ToStdout "Building Go cmd/dist."; ToStdout "Installed Go."]
       | _ => []
       end |}.

Definition asking (count : Z) (setup : bool) (builderType : string) : flags :=
  {| status := true; count := count; setup := setup; newGroup := "";
     builderType := builderType |}.

Definition empty_group : groupData := {| Name := "g"; Instances := [] |}.

(** The second of two requests fails while reading its stream. *)
Definition second_fails : environment :=
  answering [comes_up "id-1"; streaming [RecvError "unavailable"]] None.

(** Task 0 runs to its end, then task 1. *)
Definition one_then_other : list nat :=
  replicate 8 0%nat ++ replicate 3 1%nat.

End Gomote.

(** ** The usage text and the legacy command: [legacyCreate] *)

Module Legacy.
Import Catalog.

(** The note [warn] that the usage text puts after the name of a
    builder. *)
Definition warn (bt : builderType) : string :=
  if IsReverse bt then
    if 0 <? ExpectNum bt
    then "   [limited capacity: " +:+ pretty (ExpectNum bt) +:+ " machines]"
    else "   [limited capacity]"
  else "".

(** [fmt.Fprintf(os.Stderr, "  * %s%s\n", bt.Name, warn)], the line
    without its end. *)
Definition type_line (bt : builderType) : string :=
  "  * " +:+ Name bt +:+ warn bt.

(** The lines that follow "Valid types:": one for each builder of the
    catalog, or, if the catalog cannot be had, the line of [log.Fatal]:
    the message after what the standard logger writes before it,
    [log_prefix] (the date and the time, unless the logger is set up
    otherwise). *)
Definition valid_types (log_prefix : string)
    (catalog : outcome (list builderType)) : list string :=
  match catalog with
  | Returned bts => type_line <$> bts
  | Fatal msg => [log_prefix +:+ msg]
  end.

(** [fs.Usage]: the lines written to the standard error, [defaults] being
    those of [fs.PrintDefaults]; the process then ends with status 1,
    through [os.Exit(1)] or through [log.Fatal]. *)
Definition Usage (log_prefix : string) (defaults : list string)
    (catalog : outcome (list builderType)) : list string :=
  ["create usage: gomote create [create-opts] <type>"] ++ defaults ++
  [""; "Valid types:"] ++ valid_types log_prefix catalog.

(** The same note, read off the host of the builder. *)
Definition host_note (hi : hostInfo) : string :=
  if hi_IsReverse hi then
    if 0 <? hi_ExpectNum hi
    then "   [limited capacity: " +:+ pretty (hi_ExpectNum hi) +:+ " machines]"
    else "   [limited capacity]"
  else "".

(** [types.BuildletWaitStatus]. *)
Record BuildletWaitStatus := {
  Message : string;
  Ahead : Z
}.

(** What the coordinator answers: the error of
    [NewCoordinatorClientFromFlags], the statuses it reports while the
    buildlet is created, and the remote name of the client or the error
    of [CreateBuildletWithStatus]. *)
Record coordinator := {
  res_NewCoordinatorClient : option error;
  wait_statuses : list BuildletWaitStatus;
  res_CreateBuildlet : string + error
}.

(** What [fs.Parse] leaves. On an argument it cannot take (a flag that is
    not defined, a value that is not a boolean) it writes its complaint to
    the standard error and calls [fs.Usage]; on [-h] and [-help] it calls
    [fs.Usage] with no complaint. Otherwise it gives the value of
    [-status] and the arguments that are not flags. *)
Inductive parsed :=
| CalledUsage (complaint : option string)
| Parsed (status : bool) (positional : list string).

(** Lines on the standard error; the elapsed time of the progress line is
    wall-clock time and is left out. *)
Inductive line :=
| Text (s : string)
| StillCreating (builderType : string) (ahead : Z).

(** How the command ends: the process exits, or the function returns. *)
Inductive ending :=
| Exit (code : Z)
| Return (err : option error).

Record run := {
  stdout : list string;
  stderr : list line;
  ends : ending;
  contacted : bool
}.

(** The function given to [CreateBuildletWithStatus]. *)
Definition on_status (status : bool) (builderType : string)
    (st : BuildletWaitStatus) : list line :=
  if status then
    if bool_decide (Message st ≠ "") then [Text ("# " +:+ Message st)]
    else [StillCreating builderType (Ahead st)]
  else [].

(** [legacyCreate]; [contacted] tells whether the coordinator has been
    asked for a client. *)
Definition legacyCreate (activeGroup_set : bool) (args : parsed)
    (log_prefix : string) (defaults : list string)
    (catalog : outcome (list builderType)) (co : coordinator) : run :=
  if activeGroup_set then
    {| stdout := []; stderr := [];
       ends := Return (Some "command does not support groups");
       contacted := false |}
  else
    let usage (complaint : option string) :=
      {| stdout := [];
         stderr := Text <$> (option_list complaint ++
                             Usage log_prefix defaults catalog);
         ends := Exit 1; contacted := false |} in
    match args with
    | CalledUsage complaint => usage complaint
    | Parsed status positional =>
      match positional with
      | [builderType] =>
        match res_NewCoordinatorClient co with
        | Some err =>
          {| stdout := []; stderr := [];
             ends := Return (Some ("failed to create coordinator client: "
                                   +:+ err));
             contacted := true |}
        | None =>
          let progress := wait_statuses co ≫= on_status status builderType in
          match res_CreateBuildlet co with
          | inr err =>
            {| stdout := []; stderr := progress;
               ends := Return (Some ("failed to create buildlet: " +:+ err));
               contacted := true |}
          | inl RemoteName =>
            {| stdout := [RemoteName]; stderr := progress;
               ends := Return None; contacted := true |}
          end
        end
      | _ => usage None
      end
    end.

End Legacy.

(** ** Further readings of a run of [create] *)

Module Observe.
Import Gomote.

(** The task that makes a call; [storeGroup] is called by [create]
    itself. *)
Definition call_task (c : call) : option nat :=
  match c with
  | CreateInstance i _ | Recv i | getGOROOT i
  | doPush i _ _ _ _ | doRun i _ _ _ _ _ => Some i
  | storeGroup _ => None
  end.

(** The line an action writes to the standard error. *)
Definition said (a : action) : option stderr_line :=
  match a with
  | Stderr l => Some l
  | Write o => to_stderr o
  | _ => None
  end.

(** The action is a call of task [i]. *)
Definition call_of_task (i : nat) (a : action) : Prop :=
  called a ≫= call_task = Some i.

Global Instance call_of_task_dec i a : Decision (call_of_task i a).
Proof. unfold call_of_task. apply _. Defined.

(** The updates of a stream up to its first error. *)
Fixpoint updates_before_error (stream : list recv) : list recv :=
  match stream with
  | RecvUpdate update :: rest => RecvUpdate update :: updates_before_error rest
  | _ => []
  end.

(** The number of reads task [i] makes of its stream: none if the call to
    CreateInstance fails, else one for each update before the first error
    and one more, which meets the error or the end. *)
Definition reads (env : environment) (i : nat) : nat :=
  match rpc_CreateInstance (tasks env i) with
  | Some _ => 0
  | None => S (length (updates_before_error (rpc_stream (tasks env i))))
  end.

(** All the calls of task [i], in the order of its code. *)
Definition task_calls (fl : flags) (env : environment) (tmpOutDir : string)
    (i : nat) : list call :=
  CreateInstance i (builderType fl) ::
  replicate (reads env i) (Recv i) ++
  (if creation_ok env i then setup_calls fl env tmpOutDir i else []).

End Observe.

(** ** Further library functions *)

(** [s[n:]] for a string or a byte slice. *)
Fixpoint slice_from (s : string) (n : nat) : string :=
  match n, s with
  | O, _ => s
  | S n', String _ s' => slice_from s' n'
  | S _, EmptyString => EmptyString
  end.

(** [s[:n]]. *)
Fixpoint slice_to (s : string) (n : nat) {struct n} : string :=
  match n, s with
  | S n', String c s' => String c (slice_to s' n')
  | _, _ => EmptyString
  end.

(** [strings.TrimPrefix(s, prefix)]. *)
Definition TrimPrefix (s prefix : string) : string :=
  if HasPrefix s prefix then slice_from s (String.length prefix) else s.

(** [bytes.Index(s, sep)]: the offset of the first [sep] in [s], or -1. *)
Fixpoint Index (s sep : string) : Z :=
  if String.prefix sep s then 0
  else match s with
       | EmptyString => -1
       | String _ s' =>
         let i := Index s' sep in
         if i =? -1 then -1 else i + 1
       end.

(** The byte [c] occurs in [s]. *)
Fixpoint has_byte (c : ascii) (s : string) : bool :=
  match s with
  | EmptyString => false
  | String d s' => bool_decide (c = d) || has_byte c s'
  end.

(** ** The README generator: the walk function of [update-readmes.go] *)

Module Readmes.

(** What a walk function returns other than nil: [filepath.SkipDir] or
    an error that ends the walk. *)
Inductive walk_error :=
| SkipDir
| Failed (err : error).

(** The fields of [build.Package] that are used. *)
Record Package := {
  Doc : string;
  Dir : string
}.

(** How [os.WriteFile] may fail. It opens the file for writing, creating
    it or cutting it to nothing, writes the data and closes the file: the
    file cannot be opened and stays as it is, or it is opened and an error
    comes once [n] bytes of the data are written. *)
Inductive write_error :=
| OpenFails (err : error)
| WriteFails (n : nat) (err : error).

(** The library and the system as the walk function meets them: the path
    functions, the import of the package of a directory ([bctx.Import]
    with [bctx.Dir] set to that directory), the result of [os.Stat], and
    the errors of reading and writing that are not the absence of the
    file. The contents of the files are kept apart, in a map from paths. *)
Record system := {
  ToSlash : string → string;
  Join : string → string → string;
  Import : string → string → Package + error;
  Stat : string → option error;
  read_fault : string → option error;
  write_fault : string → option write_error
}.

(** The error of [os.ReadFile]: one for which [os.IsNotExist] holds, or
    another. *)
Inductive read_error :=
| ErrNotExist
| ReadFault (err : error).

(** [os.ReadFile]: the data and the error. *)
Definition ReadFile (sys : system) (files : gmap string string)
    (name : string) : string * option read_error :=
  match read_fault sys name with
  | Some err => ("", Some (ReadFault err))
  | None =>
    match files !! name with
    | Some data => (data, None)
    | None => ("", Some ErrNotExist)
    end
  end.

(** [os.WriteFile]: the files afterwards and the error. A write that
    fails leaves the beginning of the data in the file. *)
Definition WriteFile (sys : system) (files : gmap string string)
    (name data : string) : gmap string string * option error :=
  match write_fault sys name with
  | Some (OpenFails err) => (files, Some err)
  | Some (WriteFails n err) => (<[name := slice_to data n]> files, Some err)
  | None => (<[name := data]> files, None)
  end.

Definition newline : string := String "010"%char "".

Definition header : string := "Auto-generated by x/build/update-readmes.go".

Definition end_marker : string := "<!-- End of auto-generated section -->".

(** The [fmt.Sprintf] call of line 75, with its six arguments. *)
Definition Sprintf_readme (header pkg1 pkg2 pkg3 doc footer : string) : string :=
  "<!-- " +:+ header +:+ " -->" +:+ newline +:+
  newline +:+
  "[![Go Reference](https://pkg.go.dev/badge/" +:+ pkg1 +:+
    ".svg)](https://pkg.go.dev/" +:+ pkg2 +:+ ")" +:+ newline +:+
  newline +:+
  "# " +:+ pkg3 +:+ newline +:+
  newline +:+
  doc +:+ newline +:+
  footer.

(** The outcome of one call of the walk function: what it returns, the
    files afterwards, the lines logged. *)
Record outcome := {
  returns : option walk_error;
  files_after : gmap string string;
  logged : list string
}.

Definition leave (ret : option walk_error) (files : gmap string string) : outcome :=
  {| returns := ret; files_after := files; logged := [] |}.

(** The function given to [filepath.Walk], called on [path] with
    [fi.IsDir() = IsDir] and the error [err]. The variable [exist] of the
    source is [existing] here. *)
Definition walkFn (sys : system) (root_Dir : string)
    (path : string) (IsDir : bool) (err : option error)
    (files : gmap string string) : outcome :=
  match err with
  | Some err => leave (Some (Failed err)) files
  | None =>
    if negb IsDir then leave None files
    else
      let rest := TrimPrefix (TrimPrefix path root_Dir) "/" in
      if (rest =? "env")%string || (rest =? "version")%string
         || (rest =? "vendor")%string
      then leave (Some SkipDir) files
      else
        let pkgName := "golang.org/x/build/" +:+ ToSlash sys rest in
        match Import sys path pkgName with
        | inr _ => leave None files
        | inl pkg =>
          if (Doc pkg =? "")%string then leave None files
          else
            match Stat sys (Join sys (Dir pkg) "README") with
            | None => leave None files
            | Some _ =>
              let readmePath := Join sys (Dir pkg) "README.md" in
              let '(existing, err) := ReadFile sys files readmePath in
              match err with
              | Some (ReadFault err) => leave (Some (Failed err)) files
              | _ =>
                if (0 <? Z.of_nat (String.length existing))
                   && negb (Contains existing header)
                then leave None files
                else
                  let footer :=
                    let i := Index existing end_marker in
                    if negb (i =? -1) then slice_from existing (Z.to_nat i)
                    else "" in
                  let newContents :=
                    Sprintf_readme header pkgName pkgName pkgName
                                   (Doc pkg) footer in
                  if (existing =? newContents)%string then leave None files
                  else
                    match WriteFile sys files readmePath newContents with
                    | (files', Some err) => leave (Some (Failed err)) files'
                    | (files', None) =>
                      {| returns := None; files_after := files';
                         logged := ["Wrote " +:+ readmePath] |}
                    end
              end
            end
        end
  end.

(** What the function reads of a call: the package name it derives from
    the path, the path of the README, its contents, the generated
    section. *)
Definition pkgName_of (sys : system) (root_Dir path : string) : string :=
  "golang.org/x/build/" +:+
  ToSlash sys (TrimPrefix (TrimPrefix path root_Dir) "/").

Definition section (pkgName doc : string) : string :=
  Sprintf_readme header pkgName pkgName pkgName doc "".

(** The footer kept of the existing contents: what they hold from the
    first end marker on. *)
Definition kept_footer (exist : string) : string :=
  if Index exist end_marker =? -1 then ""
  else slice_from exist (Z.to_nat (Index exist end_marker)).

(** A system where nothing fails, and a package to document. *)
Definition plain : system :=
  {| ToSlash := λ s, s;
     Join := λ dir name, dir +:+ "/" +:+ name;
     Import := λ dir path,
       if (path =? "golang.org/x/build/cmd/gomote")%string
       then inl {| Doc := "The gomote command is a client for the Go builder.";
                   Dir := dir |}
       else inr ("cannot find package " +:+ path);
     Stat := λ name, Some ("stat " +:+ name +:+ ": no such file or directory");
     read_fault := λ _, None;
     write_fault := λ _, None |}.


Definition build_root : string := "/src/build".
Definition gomote_dir : string := "/src/build/cmd/gomote".

(** A README of the tool with a line of the owner after the end marker. *)
Definition old_section : string :=
  "<!-- Auto-generated by x/build/update-readmes.go -->" +:+ newline +:+
  "old text" +:+ newline.
Definition owner_text : string := newline +:+ "See also the wiki.".
Definition with_footer : gmap string string :=
  {[ "/src/build/cmd/gomote/README.md" :=
       old_section +:+ end_marker +:+ owner_text ]}.

(** The same system on a disk that is full: the file is opened and the
    write fails at once. *)
Definition disk_full : system :=
  {| ToSlash := ToSlash plain; Join := Join plain; Import := Import plain;
     Stat := Stat plain; read_fault := read_fault plain;
     write_fault := λ _, Some (WriteFails 0 "no space left on device") |}.

End Readmes.

(** * Properties *)

(** ** Strings *)

Lemma prefix_app (p s : string) :
  String.prefix p s = true ↔ ∃ t, s = p +:+ t.
Proof.
  revert s. induction p as [|c p IH]; intros s.
  - destruct s; simpl; split; eauto.
  - destruct s as [|d s]; simpl.
    + split; [done | intros [t Ht]; discriminate].
    + destruct (ascii_dec c d) as [->|Hne].
      * rewrite IH. split; intros [t Ht]; exists t.
        -- by rewrite Ht.
        -- by injection Ht.
      * split; [done | intros [t Ht]; injection Ht; congruence].
Qed.

Lemma HasPrefix_app (s p : string) :
  HasPrefix s p = true ↔ ∃ t, s = p +:+ t.
Proof. apply prefix_app. Qed.

(** [Contains] is the substring test. *)
Lemma Contains_substring (s sub : string) :
  Contains s sub = true ↔ ∃ pre post, s = pre +:+ sub +:+ post.
Proof.
  induction s as [|c s IH].
  - change (Contains "" sub) with (String.prefix sub "" || false).
    rewrite orb_true_iff, prefix_app. split.
    + intros [[t Ht]|?]; [|done]. by exists "", t.
    + intros ([|? ?] & post & H); [left; by exists post | discriminate].
  - change (Contains (String c s) sub)
      with (String.prefix sub (String c s) || Contains s sub).
    rewrite orb_true_iff, prefix_app, IH. split.
    + intros [[t Ht]|(pre & post & Ht)].
      * by exists "", t.
      * exists (String c pre), post. by rewrite Ht.
    + intros ([|d pre] & post & Ht).
      * left. by exists post.
      * right. exists pre, post. by injection Ht.
Qed.

Lemma compare_refl (a : string) : (a ?= a)%string = Eq.
Proof.
  induction a as [|c a IH]; simpl; [done|].
  unfold Ascii.compare. by rewrite N.compare_refl.
Qed.

(** [<?] compares byte by byte, a proper prefix coming first. *)
Lemma ltb_cons (a b : ascii) (s t : string) :
  (String a s <? String b t)%string =
  match (N_of_ascii a ?= N_of_ascii b)%N with
  | Lt => true
  | Eq => (s <? t)%string
  | Gt => false
  end.
Proof.
  unfold String.ltb. simpl. unfold Ascii.compare.
  by destruct (N_of_ascii a ?= N_of_ascii b)%N.
Qed.

Lemma ltb_nil (s : string) : ("" <? s)%string = negb (s =? "")%string.
Proof. by destruct s. Qed.

Lemma ltb_le_ne (a b : string) :
  (a <? b)%string = true ↔ String.le a b ∧ a ≠ b.
Proof.
  unfold String.le, String.ltb, String.leb.
  destruct (a ?= b)%string eqn:Hc; simpl.
  - apply String.compare_eq_iff in Hc. split; [done|]. by intros [_ ?].
  - split; [intros _|done]. split; [done|]. intros ->.
    by rewrite compare_refl in Hc.
  - split; [done|]. by intros [[] _].
Qed.

Lemma ltb_false_le (a b : string) :
  (a <? b)%string = false ↔ String.le b a.
Proof.
  unfold String.le, String.ltb, String.leb.
  rewrite (String.compare_antisym a b).
  destruct (b ?= a)%string; simpl; split; done.
Qed.

(** ** The library sort *)

Section sort_Slice.
Context {A : Type} (less : A → A → bool).

Local Abbreviation not_after := (not_after less).

Hypothesis less_asym : ∀ x y, less x y = true → less y x = false.

Lemma sort_insert_perm x l : sort_insert less x l ≡ₚ x :: l.
Proof.
  induction l as [|y l IH]; simpl; [done|].
  destruct (less y x); [|done].
  rewrite IH. apply Permutation_swap.
Qed.

Lemma sort_Slice_perm l : sort_Slice less l ≡ₚ l.
Proof.
  induction l as [|x l IH]; simpl; [done|].
  by rewrite sort_insert_perm, IH.
Qed.

Lemma sort_insert_HdRel a x l :
  not_after a x → HdRel not_after a l → HdRel not_after a (sort_insert less x l).
Proof.
  intros Hax Hal. destruct l as [|y l]; simpl; [by constructor|].
  destruct (less y x); constructor; [by inv Hal | done].
Qed.

Lemma sort_insert_Sorted x l :
  Sorted not_after l → Sorted not_after (sort_insert less x l).
Proof.
  induction 1 as [|y l Hl IH Hy]; simpl; [by repeat constructor|].
  destruct (less y x) eqn:Hyx.
  - constructor; [done|]. apply sort_insert_HdRel; [|done].
    by apply less_asym.
  - repeat constructor; done.
Qed.

Lemma sort_Slice_Sorted l : Sorted not_after (sort_Slice less l).
Proof.
  induction l as [|x l IH]; simpl; [constructor|].
  by apply sort_insert_Sorted.
Qed.
End sort_Slice.

(** ** The builder catalog *)

Section catalog.
Import Catalog.

Lemma less_asym (x y : builderType) : less x y = true → less y x = false.
Proof.
  unfold less. rewrite ltb_le_ne, ltb_false_le. naive_solver.
Qed.

Lemma unusable_false (hi : hostInfo) :
  negb (hi_IsReverse hi) && (ContainerImage hi =? "")%string
    && (VMImage hi =? "")%string = false ↔
  hi_IsReverse hi = true ∨ ContainerImage hi ≠ "" ∨ VMImage hi ≠ "".
Proof.
  rewrite !andb_false_iff, negb_false_iff, !String.eqb_neq. tauto.
Qed.

Lemma visit_elem hosts bt b bi x :
  x ∈ visit hosts bt b bi ↔
  x ∈ bt ∨ ∃ hi,
    HasPrefix b "misc-compile" = false ∧ hosts !! HostType bi = Some hi ∧
    (hi_IsReverse hi = true ∨ ContainerImage hi ≠ "" ∨ VMImage hi ≠ "") ∧
    x = {| Name := b; IsReverse := hi_IsReverse hi; ExpectNum := hi_ExpectNum hi |}.
Proof.
  unfold visit. destruct (HasPrefix b "misc-compile") eqn:Hp.
  { split; [by left|]. by intros [? |(? & ? & _)]. }
  destruct (hosts !! HostType bi) as [hi|] eqn:Hh.
  2:{ split; [by left|]. by intros [? |(? & _ & ? & _)]. }
  destruct (negb (hi_IsReverse hi) && _ && _) eqn:Hu.
  - split; [by left|]. intros [? |(hi' & _ & [= <-] & Hk & _)]; [done|].
    apply unusable_false in Hk. congruence.
  - rewrite elem_of_app, list_elem_of_singleton.
    apply unusable_false in Hu. split.
    + intros [? | ->]; [by left|right]. by exists hi.
    + intros [? |(hi' & _ & [= <-] & _ & ->)]; [by left|by right].
Qed.

Lemma range_Builders_elem hosts entries bt x :
  x ∈ range_Builders hosts entries bt ↔
  x ∈ bt ∨ ∃ b bi hi,
    (b, bi) ∈ entries ∧
    HasPrefix b "misc-compile" = false ∧ hosts !! HostType bi = Some hi ∧
    (hi_IsReverse hi = true ∨ ContainerImage hi ≠ "" ∨ VMImage hi ≠ "") ∧
    x = {| Name := b; IsReverse := hi_IsReverse hi; ExpectNum := hi_ExpectNum hi |}.
Proof.
  revert bt. induction entries as [|[b bi] entries IH]; intros bt; simpl.
  - split; [auto|]. intros [? |(? & ? & ? & H & _)]; [done|]. by inv H.
  - rewrite IH, visit_elem. split.
    + intros [[? |(hi & ?)]|(b' & bi' & hi & ? & ?)]; [by left|right..].
      * exists b, bi, hi. split; [left|]; naive_solver.
      * exists b', bi', hi. split; [by right|done].
    + intros [? |(b' & bi' & hi & Hin & ?)]; [by left; left|].
      apply elem_of_cons in Hin as [? |?]; simplify_eq.
      * left. right. by exists hi.
      * right. by exists b', bi', hi.
Qed.

(** The names collected are names of entries visited, in that order. *)
Lemma range_Builders_names hosts entries bt :
  ∃ sub, sub `sublist_of` entries.*1 ∧
         Name <$> range_Builders hosts entries bt = (Name <$> bt) ++ sub.
Proof.
  revert bt. induction entries as [|[b bi] entries IH]; intros bt; simpl.
  - exists []. by rewrite app_nil_r.
  - destruct (IH (visit hosts bt b bi)) as (sub & Hsub & ->).
    unfold visit.
    destruct (HasPrefix b "misc-compile");
      [exists sub; split; [by constructor|done]|].
    destruct (hosts !! HostType bi) as [hi|];
      [|exists sub; split; [by constructor|done]].
    destruct (negb (hi_IsReverse hi) && (ContainerImage hi =? "")%string
              && (VMImage hi =? "")%string).
    + exists sub; split; [by constructor|done].
    + exists (b :: sub). split; [by constructor|].
      by rewrite fmap_app, <-app_assoc.
Qed.

Lemma visit_keep hosts bt b bi :
  visit hosts bt b bi = bt ++ option_list (keep hosts (b, bi)).
Proof.
  unfold keep, visit; simpl. destruct (HasPrefix b "misc-compile").
  { by rewrite app_nil_r. }
  destruct (hosts !! HostType bi) as [hi|]; [|by rewrite app_nil_r].
  destruct (negb (hi_IsReverse hi) && _ && _); [by rewrite app_nil_r|done].
Qed.

Lemma range_Builders_omap hosts entries bt :
  range_Builders hosts entries bt = bt ++ omap (keep hosts) entries.
Proof.
  revert bt. induction entries as [|[b bi] entries IH]; intros bt; simpl.
  - by rewrite app_nil_r.
  - rewrite IH, visit_keep, <-app_assoc. f_equal.
    by destruct (keep hosts (b, bi)).
Qed.

Lemma name_lt_le_ne x y :
  name_lt x y ↔ not_after less x y ∧ Name x ≠ Name y.
Proof.
  unfold name_lt, not_after, less. rewrite ltb_le_ne, ltb_false_le. done.
Qed.

Global Instance not_after_less_trans : Transitive (not_after less).
Proof.
  intros x y z. unfold not_after, less. rewrite !ltb_false_le.
  apply (transitivity (R := String.le)).
Qed.

Lemma StronglySorted_name_lt (bt : list builderType) :
  Sorted (not_after less) bt → NoDup (Name <$> bt) →
  StronglySorted name_lt bt.
Proof.
  intros Hs%Sorted_StronglySorted; [|apply _].
  induction Hs as [|x bt Hbt IH Hx]; intros Hnd; [constructor|].
  rewrite fmap_cons in Hnd. apply NoDup_cons in Hnd as [Hx' Hnd].
  constructor; [by apply IH|].
  rewrite Forall_forall in Hx |- *. intros y Hy.
  apply name_lt_le_ne. split; [by apply Hx|].
  intros Heq. apply Hx'. rewrite Heq. by apply list_elem_of_fmap_2.
Qed.

Section decoded.
Context (r : resj) (entries : list (string * builderInfo)).
Hypothesis range_order : entries ≡ₚ map_to_list (Builders r).

Lemma entries_lookup b bi : (b, bi) ∈ entries ↔ Builders r !! b = Some bi.
Proof. by rewrite range_order, elem_of_map_to_list. Qed.

Lemma entries_NoDup : NoDup entries.*1.
Proof. rewrite range_order. apply NoDup_fst_map_to_list. Qed.

(** The list returned holds the builders the filter keeps, no other. *)
Lemma builders_of_elem x :
  x ∈ builders_of r entries ↔
  ∃ b bi hi, kept r b bi hi ∧
    x = {| Name := b; IsReverse := hi_IsReverse hi;
           ExpectNum := hi_ExpectNum hi |}.
Proof.
  unfold builders_of, kept. rewrite sort_Slice_perm, range_Builders_elem.
  split.
  - intros [Hx|(b & bi & hi & Hin & ? & ? & ? & ->)]; [by inv Hx|].
    exists b, bi, hi. by rewrite <-entries_lookup.
  - intros (b & bi & hi & (Hin & ? & ? & ?) & ->). right.
    exists b, bi, hi. by rewrite entries_lookup.
Qed.

Lemma builders_of_name b :
  b ∈ Name <$> builders_of r entries ↔ ∃ bi hi, kept r b bi hi.
Proof.
  rewrite list_elem_of_fmap. setoid_rewrite builders_of_elem. split.
  - intros (x & -> & b' & bi & hi & ? & ->). by exists bi, hi.
  - intros (bi & hi & ?). eexists. split; [|by exists b, bi, hi]. done.
Qed.

Lemma builders_of_NoDup : NoDup (Name <$> builders_of r entries).
Proof.
  unfold builders_of. rewrite sort_Slice_perm.
  destruct (range_Builders_names (Hosts r) entries []) as (sub & Hsub & ->).
  simpl. eapply sublist_NoDup; [apply entries_NoDup | done].
Qed.

Lemma builders_of_sorted : StronglySorted name_lt (builders_of r entries).
Proof.
  apply StronglySorted_name_lt; [|apply builders_of_NoDup].
  apply sort_Slice_Sorted, less_asym.
Qed.
End decoded.

(** The order in which [range] visits the map does not show in the result. *)
Lemma builders_of_order r entries entries' :
  entries ≡ₚ map_to_list (Builders r) → entries' ≡ₚ map_to_list (Builders r) →
  builders_of r entries = builders_of r entries'.
Proof.
  intros H H'.
  apply (StronglySorted_unique_strong name_lt);
    [|by apply builders_of_sorted..|].
  - intros x y _ _ Hxy Hyx. exfalso.
    unfold name_lt in *. apply ltb_le_ne in Hxy as [Hxy Hne].
    apply ltb_le_ne in Hyx as [Hyx _].
    apply Hne. by apply (anti_symm String.le).
  - unfold builders_of. rewrite !sort_Slice_perm, !range_Builders_omap.
    simpl. by rewrite H, H'.
Qed.

(** Any way of sorting agrees with [sort_Slice] on builders with different
    names: what is proved of [builders] does not depend on how the library
    sorts. *)
Lemma sort_Slice_unique (bt sorted : list builderType) :
  NoDup (Name <$> bt) →
  sorted ≡ₚ bt → Sorted (not_after less) sorted →
  sorted = sort_Slice less bt.
Proof.
  intros Hnd Hperm Hsorted.
  apply (StronglySorted_unique_strong name_lt).
  - intros x y _ _ Hxy Hyx. exfalso.
    unfold name_lt in *. apply ltb_le_ne in Hxy as [Hxy Hne].
    apply ltb_le_ne in Hyx as [Hyx _].
    apply Hne. by apply (anti_symm String.le).
  - apply StronglySorted_name_lt; [done|]. by rewrite Hperm.
  - apply StronglySorted_name_lt; [apply sort_Slice_Sorted, less_asym|].
    by rewrite sort_Slice_perm.
  - by rewrite sort_Slice_perm.
Qed.
End catalog.

Section catalog_claims.
Import Catalog.

Lemma builders_Returned res r order bt :
  Body res = inr r → builders (inr res) order = Returned bt →
  bt = builders_of r (order (Builders r)).
Proof.
  unfold builders. intros ->. destruct (negb _); [done|]. congruence.
Qed.

Example sample_builders_run :
  builders (inr sample_response) map_to_list = Returned sample_builders.
Proof. vm_compute. reflexivity. Qed.

Example builders_not_200 order :
  builders (inr {| StatusCode := 503; Status := "503 Service Unavailable";
                   Body := inr sample_resj |}) order
  = Fatal "fetching builder types: 503 Service Unavailable".
Proof. reflexivity. Qed.

(** C9. The list [builders] returns holds no builder whose name starts
    with "misc-compile" and no builder whose host is not reverse and has
    neither a container image nor a VM image, and it is in ascending
    lexicographic order of the names, whatever the order in which the
    map of builders is visited. *)
Theorem builders_filtered_sorted (res : response) (r : resj)
    (order : gmap string builderInfo → list (string * builderInfo))
    (bt : list builderType) :
  (∀ m, order m ≡ₚ map_to_list m) →
  Body res = inr r →
  builders (inr res) order = Returned bt →
  (∀ b, HasPrefix b "misc-compile" = true → b ∉ (Name <$> bt)) ∧
  (∀ b bi hi,
      Builders r !! b = Some bi → Hosts r !! HostType bi = Some hi →
      hi_IsReverse hi = false → ContainerImage hi = "" → VMImage hi = "" →
      b ∉ (Name <$> bt)) ∧
  StronglySorted name_lt bt.
Proof.
  intros Horder Hbody Hret.
  rewrite (builders_Returned _ _ _ _ Hbody Hret).
  split; [|split].
  - intros b Hp. rewrite builders_of_name by done.
    intros (bi & hi & _ & Hp' & _). congruence.
  - intros b bi hi Hb Hh Hr Hc Hv. rewrite builders_of_name by done.
    intros (bi' & hi' & Hb' & _ & Hh' & Hk).
    assert (bi' = bi) as -> by congruence.
    assert (hi' = hi) as -> by congruence.
    destruct Hk as [? | [? | ?]]; congruence.
  - by apply builders_of_sorted.
Qed.

Lemma builders_filtered_sorted_witness :
  ("misc-compile-mips" ∉ (Name <$> sample_builders)) ∧
  ("plan9-386" ∉ (Name <$> sample_builders)) ∧
  StronglySorted name_lt sample_builders.
Proof.
  destruct (builders_filtered_sorted sample_response sample_resj map_to_list
              sample_builders) as (Hp & Hh & Hs).
  - done.
  - reflexivity.
  - vm_compute. reflexivity.
  - split; [|split; [|exact Hs]].
    + apply Hp. reflexivity.
    + apply (Hh _ {| HostType := "host-plan9" |}
               {| hi_IsReverse := false; hi_ExpectNum := 0;
                  ContainerImage := ""; VMImage := "" |});
        vm_compute; reflexivity.
Defined.

(** C10. [builders] also leaves out every builder whose host type has no
    entry in [Hosts], whatever its name. *)
Theorem builders_unknown_host_dropped (res : response) (r : resj)
    (order : gmap string builderInfo → list (string * builderInfo))
    (bt : list builderType) (b : string) (bi : builderInfo) :
  (∀ m, order m ≡ₚ map_to_list m) →
  Body res = inr r →
  builders (inr res) order = Returned bt →
  Builders r !! b = Some bi →
  Hosts r !! HostType bi = None →
  b ∉ (Name <$> bt).
Proof.
  intros Horder Hbody Hret Hb Hh.
  rewrite (builders_Returned _ _ _ _ Hbody Hret).
  rewrite builders_of_name by done.
  intros (bi' & hi & Hb' & _ & Hh' & _).
  assert (bi' = bi) as -> by congruence. congruence.
Qed.

(** "aix-ppc64" has no compile-only prefix; its host type is not listed. *)
Lemma builders_unknown_host_dropped_witness :
  HasPrefix "aix-ppc64" "misc-compile" = false ∧
  "aix-ppc64" ∉ (Name <$> sample_builders).
Proof.
  split; [reflexivity|].
  apply (builders_unknown_host_dropped sample_response sample_resj map_to_list
           sample_builders "aix-ppc64" {| HostType := "host-aix" |}).
  - done.
  - reflexivity.
  - vm_compute. reflexivity.
  - vm_compute. reflexivity.
  - vm_compute. reflexivity.
Defined.
End catalog_claims.

(** ** The shared state after a run *)

Section orchestrator.
Import Gomote.

Lemma foldl_apply_stdout m w :
  stdout (foldl apply w m) = stdout w ++ omap printed m.
Proof.
  revert w. induction m as [|a m IH]; intros w; simpl.
  - by rewrite app_nil_r.
  - rewrite IH. destruct a as [| | | | |[]]; simpl;
      rewrite <-?app_assoc, ?app_nil_r; done.
Qed.

Lemma foldl_apply_calls m w :
  calls (foldl apply w m) = calls w ++ omap called m.
Proof.
  revert w. induction m as [|a m IH]; intros w; simpl.
  - by rewrite app_nil_r.
  - rewrite IH. destruct a as [| | | | |[]]; simpl;
      rewrite <-?app_assoc, ?app_nil_r; done.
Qed.

Lemma foldl_apply_returned m w :
  returned (foldl apply w m) = returned w ++ omap handed m.
Proof.
  revert w. induction m as [|a m IH]; intros w; simpl.
  - by rewrite app_nil_r.
  - rewrite IH. destruct a as [| | | | |[]]; simpl;
      rewrite <-?app_assoc, ?app_nil_r; done.
Qed.

Lemma foldl_apply_group m w :
  group (foldl apply w m) =
  (λ g, {| Name := Name g; Instances := Instances g ++ omap appended m |})
    <$> group w.
Proof.
  revert w. induction m as [|a m IH]; intros w; simpl.
  - destruct (group w) as [[]|]; simpl; [|done]. by rewrite app_nil_r.
  - rewrite IH. destruct a as [| | | | |[]]; simpl; try done.
    destruct (group w) as [[]|]; simpl; [|done]. by rewrite <-app_assoc.
Qed.

Lemma first_error_app rs rs' :
  first_error (rs ++ rs') =
  match first_error rs with Some err => Some err | None => first_error rs' end.
Proof.
  induction rs as [|[i [err|]] rs IH]; simpl; done.
Qed.

(** The error group keeps the first error handed to it. *)
Lemma foldl_apply_eg_err m w :
  eg_err w = first_error (returned w) →
  eg_err (foldl apply w m) = first_error (returned (foldl apply w m)).
Proof.
  revert w. induction m as [|a m IH]; intros w Hw; simpl; [done|].
  apply IH. destruct a as [| | | |j err|[]]; simpl; try done.
  rewrite first_error_app, <-Hw. simpl.
  destruct (eg_err w); [done|]. by destruct err.
Qed.

(** One step of a task takes the head of what it has left to do. *)
Lemma concat_insert_tail (qs : list (list action)) i a q :
  qs !! i = Some (a :: q) → concat qs ≡ₚ a :: concat (<[i := q]> qs).
Proof.
  intros Hi.
  rewrite <-(take_drop_middle qs i (a :: q)) at 1 by done.
  rewrite insert_take_drop by (by eapply lookup_lt_Some).
  rewrite !concat_app. simpl. by rewrite <-Permutation_middle.
Qed.

Lemma interleaving_cons_nil qs m :
  interleaving qs m → interleaving ([] :: qs) m.
Proof.
  induction 1 as [qs Hqs|qs i a q m Hi _ IH].
  - by apply interleaving_end.
  - by apply (interleaving_step _ (S i) a q).
Qed.

(** The tasks run one after the other: an interleaving among others. *)
Lemma interleaving_concat qs : interleaving qs (concat qs).
Proof.
  induction qs as [|q0 qs IH]; [by apply interleaving_end|].
  induction q0 as [|a q0 IHq]; simpl.
  - by apply interleaving_cons_nil.
  - by apply (interleaving_step _ 0%nat a q0).
Qed.

Lemma interleaving_Permutation qs m : interleaving qs m → m ≡ₚ concat qs.
Proof.
  induction 1 as [qs Hqs|qs i a q m Hi _ IH]; [by rewrite Hqs|].
  by rewrite IH, <-concat_insert_tail.
Qed.

(** Every schedule carries out an interleaving of the actions of the
    tasks. *)
Lemma run_interleaving sched qs w :
  ∃ m, interleaving qs m ∧
       eg_Wait (run sched qs w) = (eg_err (foldl apply w m), foldl apply w m).
Proof.
  revert qs w. induction sched as [|i sched IH]; intros qs w; simpl.
  { exists (concat qs). split; [apply interleaving_concat|done]. }
  destruct (qs !! i) as [[|a q]|] eqn:Hi; [apply IH| |apply IH].
  destruct (IH (<[i := q]> qs) (apply w a)) as (m & Hm & ->).
  exists (a :: m). split; [|done]. by apply (interleaving_step _ i a q).
Qed.

(** Every interleaving is carried out by some schedule. *)
Lemma interleaving_run qs m :
  interleaving qs m →
  ∃ sched, ∀ w,
    eg_Wait (run sched qs w) = (eg_err (foldl apply w m), foldl apply w m).
Proof.
  induction 1 as [qs Hqs|qs i a q m Hi _ [sched IH]].
  - exists []. intros w. unfold eg_Wait. simpl. by rewrite Hqs.
  - exists (i :: sched). intros w. simpl. by rewrite Hi, IH.
Qed.

(** Once [eg.Wait] returns, every action of every task has been carried
    out, in some order. *)
Lemma eg_Wait_executed sched qs w :
  ∃ m, m ≡ₚ concat qs ∧
       eg_Wait (run sched qs w) = (eg_err (foldl apply w m), foldl apply w m).
Proof.
  destruct (run_interleaving sched qs w) as (m & Hm & Hw).
  exists m. split; [by apply interleaving_Permutation|done].
Qed.

(** A task may take all its next steps in a row. *)
Lemma interleaving_prefix qs i q q' m :
  qs !! i = Some (q ++ q') →
  interleaving (<[i := q']> qs) m →
  interleaving qs (q ++ m).
Proof.
  revert qs. induction q as [|a q IH]; intros qs Hi Hm; simpl in *.
  - by rewrite list_insert_id in Hm.
  - apply (interleaving_step _ i a (q ++ q')); [done|]. apply IH.
    + apply list_lookup_insert_eq. by eapply lookup_lt_Some.
    + by rewrite list_insert_insert_eq.
Qed.

Lemma bind_ext_elem {A B} (f g : A → list B) (l : list A) :
  (∀ x, x ∈ l → f x = g x) → l ≫= f = l ≫= g.
Proof.
  induction l as [|x l IH]; intros Hfg; [done|].
  rewrite !bind_cons, (Hfg x), IH; [done| |by left].
  intros y ?. apply Hfg. by right.
Qed.

(** The tasks may run one after the other in any order: each order of the
    tasks is an interleaving among others. *)
Lemma interleaving_order qs order :
  NoDup order →
  (∀ i, i ∈ order → (i < length qs)%nat) →
  (∀ i q, qs !! i = Some q → i ∉ order → q = []) →
  interleaving qs (order ≫= λ i, default [] (qs !! i)).
Proof.
  revert qs. induction order as [|i order IH]; intros qs Hnd Hlt Hrest.
  - apply interleaving_end, concat_nil_Forall, Forall_forall.
    intros q [j Hj]%list_elem_of_lookup. eapply Hrest; [done|]. by intros ?%elem_of_nil.
  - apply NoDup_cons in Hnd as [Hi Hnd]. rewrite bind_cons.
    destruct (lookup_lt_is_Some_2 qs i) as [q Hq]; [apply Hlt; by left|].
    rewrite Hq. cbn [default].
    apply (interleaving_prefix qs i q []); [by rewrite app_nil_r|].
    rewrite (bind_ext_elem _ (λ j, default [] (<[i := []]> qs !! j))).
    + apply IH; [done| |].
      * intros j Hj. rewrite length_insert. apply Hlt. by right.
      * intros j q' Hj Hnot. destruct (decide (j = i)) as [->|Hne].
        -- rewrite list_lookup_insert_eq in Hj by (by eapply lookup_lt_Some).
           by injection Hj as <-.
        -- rewrite list_lookup_insert_ne in Hj by done.
           eapply Hrest; [done|]. by intros [?|?]%elem_of_cons.
    + intros j Hj. rewrite list_lookup_insert_ne; [done|]. by intros ->.
Qed.

Lemma fmap_Permutation_inv {A B} (f : A → B) (k : list B) (l : list A) :
  k ≡ₚ f <$> l → ∃ l', l' ≡ₚ l ∧ k = f <$> l'.
Proof.
  intros Hk. change (f <$> l) with (map f l) in Hk.
  apply Permutation_map_inv in Hk as (l' & -> & Hl'). by exists l'.
Qed.
End orchestrator.

(** ** One task *)

Section one_task.
Import Gomote.
Context (fl : flags) (env : environment).
Context (group_set : bool) (tmpOutDir : string) (i : nat).

Local Abbreviation updateLoop := (updateLoop fl env i).
Local Abbreviation task := (task fl env group_set tmpOutDir i).
Local Abbreviation setup_instance := (setup_instance fl env tmpOutDir i).

(** The loop, one read at a time. *)
Lemma updateLoop_nil inst :
  updateLoop [] inst = ([Call (Recv i)], inl inst).
Proof. reflexivity. Qed.

Lemma updateLoop_error err rest inst :
  updateLoop (RecvError err :: rest) inst =
  ([Call (Recv i)],
   inr (Errorf_create_n (Z.of_nat i + 1) (statusFromError env err))).
Proof. reflexivity. Qed.

Lemma updateLoop_update update rest inst :
  updateLoop (RecvUpdate update :: rest) inst =
  let next := updateLoop rest (default inst (complete_id (RecvUpdate update))) in
  (Call (Recv i) ::
     (if bool_decide (GetStatus update ≠ COMPLETE) && status fl
      then [Stderr (StillCreating (builderType fl) (Z.of_nat i + 1)
                                  (GetWaitersAhead update))]
      else []) ++ next.1,
   next.2).
Proof.
  simpl. destruct (GetStatus update), (status fl); simpl;
    match goal with |- context [Gomote.updateLoop _ _ _ ?s ?x] =>
      destruct (Gomote.updateLoop fl env i s x) end; reflexivity.
Qed.

Lemma last_cons_default {A} (x d : A) l :
  default d (last (x :: l)) = default x (last l).
Proof.
  revert x d. induction l as [|y l IH]; intros x d; [done|].
  change (last (x :: y :: l)) with (last (y :: l)).
  by rewrite (IH y d), (IH y x).
Qed.

(** Updates are read one after the other; a COMPLETE update changes the
    identifier held and the loop goes on. *)
Lemma updateLoop_app us stream inst :
  forallb is_update us = true →
  let next := updateLoop stream (default inst (last (omap complete_id us))) in
  (updateLoop (us ++ stream) inst).2 = next.2 ∧
  omap called (updateLoop (us ++ stream) inst).1 =
    replicate (length us) (Recv i) ++ omap called next.1 ∧
  omap printed (updateLoop (us ++ stream) inst).1 = omap printed next.1 ∧
  omap appended (updateLoop (us ++ stream) inst).1 = omap appended next.1 ∧
  omap handed (updateLoop (us ++ stream) inst).1 = omap handed next.1.
Proof.
  revert inst. induction us as [|[u|e] us IH]; intros inst Hus; [done | |done].
  simpl in Hus. specialize (IH (default inst (complete_id (RecvUpdate u))) Hus).
  rewrite <-app_comm_cons, updateLoop_update. cbn zeta.
  assert (default inst (last (omap complete_id (RecvUpdate u :: us))) =
          default (default inst (complete_id (RecvUpdate u)))
                  (last (omap complete_id us))) as ->.
  { cbn [omap list_omap]. destruct (complete_id (RecvUpdate u)); simpl; [|done].
    apply last_cons_default. }
  destruct IH as (-> & Hc & Hp & Ha & Hh).
  split; [done|]. cbn [fst snd].
  set (inst' := default inst (complete_id (RecvUpdate u))) in *.
  unfold omap in *.
  destruct (bool_decide (GetStatus u ≠ COMPLETE) && status fl); simpl;
    rewrite ?Hc, ?Hp, ?Ha, ?Hh; done.
Qed.

(** A stream has no error, or has a first one. *)
Lemma stream_cases (stream : list recv) :
  forallb is_update stream = true ∨
  ∃ us err rest, stream = us ++ RecvError err :: rest ∧
                 forallb is_update us = true.
Proof.
  induction stream as [|[u|e] stream IH]; simpl.
  - by left.
  - destruct IH as [?|(us & err & rest & -> & ?)]; [by left|right].
    by exists (RecvUpdate u :: us), err, rest.
  - right. by exists [], e, stream.
Qed.

Lemma updateLoop_no_error stream inst :
  forallb is_update stream = true →
  (updateLoop stream inst).2 =
    inl (default inst (last (omap complete_id stream))) ∧
  omap called (updateLoop stream inst).1 =
    replicate (S (length stream)) (Recv i) ∧
  omap printed (updateLoop stream inst).1 = [] ∧
  omap appended (updateLoop stream inst).1 = [] ∧
  omap handed (updateLoop stream inst).1 = [].
Proof.
  intros Hs. destruct (updateLoop_app stream [] inst Hs) as (Hr & Hc & Hp & Ha & Hh).
  rewrite app_nil_r in *. rewrite Hr, Hc, Hp, Ha, Hh, updateLoop_nil. simpl.
  split; [done|]. split; [|done].
  by rewrite <-replicate_cons_app.
Qed.

Lemma updateLoop_first_error us err rest inst :
  forallb is_update us = true →
  (updateLoop (us ++ RecvError err :: rest) inst).2 =
    inr (Errorf_create_n (Z.of_nat i + 1) (statusFromError env err)) ∧
  omap called (updateLoop (us ++ RecvError err :: rest) inst).1 =
    replicate (S (length us)) (Recv i) ∧
  omap printed (updateLoop (us ++ RecvError err :: rest) inst).1 = [] ∧
  omap appended (updateLoop (us ++ RecvError err :: rest) inst).1 = [] ∧
  omap handed (updateLoop (us ++ RecvError err :: rest) inst).1 = [].
Proof.
  intros Hs.
  destruct (updateLoop_app us (RecvError err :: rest) inst Hs)
    as (Hr & Hc & Hp & Ha & Hh).
  rewrite Hr, Hc, Hp, Ha, Hh, updateLoop_error. simpl.
  split; [done|]. split; [|done].
  by rewrite <-replicate_cons_app.
Qed.

Local Abbreviation make_script := (make_script fl).

Lemma omap_cons {A B} (f : A → option B) x l :
  omap f (x :: l) = option_list (f x) ++ omap f l.
Proof. unfold omap. simpl. by destruct (f x). Qed.

Lemma omap_nil {A B} (f : A → option B) : omap f [] = [].
Proof. done. Qed.

Ltac omap_norm :=
  repeat first [rewrite omap_app | rewrite omap_cons | rewrite omap_nil];
  cbn [handed printed appended called option_list option_rect app];
  rewrite ?app_nil_r, <-?app_assoc; cbn [app].

(** The lines of a setup step are no calls, no appends and no returns. *)
Lemma omap_Write (os : list written) :
  omap called (Write <$> os) = [] ∧
  omap printed (Write <$> os) = omap to_stdout os ∧
  omap appended (Write <$> os) = [] ∧
  omap handed (Write <$> os) = [].
Proof.
  induction os as [|o os (Hc & Hp & Ha & Hh)]; [done|].
  rewrite fmap_cons, !omap_cons, Hc, Hp, Ha, Hh. done.
Qed.

Lemma invoke_called c : omap called (invoke env c).1 = [c].
Proof.
  unfold invoke. cbn.
  by destruct (omap_Write (progress env c)) as (-> & _).
Qed.

Lemma setup_instance_off te inst :
  setup fl = false → setup_instance te inst = ([], None).
Proof. unfold Gomote.setup_instance. by intros ->. Qed.

Lemma setup_instance_result te inst :
  setup fl = true →
  (setup_instance te inst).2 =
  match res_getGOROOT te with
  | inr err => Some err
  | inl _ => match res_doPush te with
             | Some err => Some err
             | None => res_doRun te
             end
  end.
Proof.
  unfold Gomote.setup_instance. intros ->.
  destruct (res_getGOROOT te), (res_doPush te), (count fl =? 1); reflexivity.
Qed.

Ltac omap_Write :=
  repeat match goal with
  | |- context [omap _ (Write <$> ?os)] =>
    let Hc := fresh in let Hp := fresh in
    let Ha := fresh in let Hh := fresh in
    destruct (omap_Write os) as (Hc & Hp & Ha & Hh);
    rewrite ?Hc, ?Hp, ?Ha, ?Hh; clear Hc Hp Ha Hh
  end.

(** The setup steps append nothing and return nothing; what they leave on
    the standard output is what the calls they make write there. *)
Lemma setup_instance_writes te inst :
  omap printed (setup_instance te inst).1
    = omap to_stdout (omap called (setup_instance te inst).1 ≫= progress env) ∧
  omap appended (setup_instance te inst).1 = [] ∧
  omap handed (setup_instance te inst).1 = [].
Proof.
  unfold Gomote.setup_instance, invoke.
  destruct (setup fl), (res_getGOROOT te), (res_doPush te), (count fl =? 1);
    cbn; try done; omap_norm; omap_Write; cbn [app];
    rewrite ?bind_cons, ?bind_nil, ?omap_app, ?app_nil_r, <-?app_assoc;
    repeat split.
Qed.

Lemma setup_instance_called te inst :
  omap called (setup_instance te inst).1 =
  if setup fl then
    getGOROOT i ::
    match res_getGOROOT te with
    | inr _ => []
    | inl goroot =>
      doPush i inst goroot false (count fl =? 1) ::
      match res_doPush te with
      | Some _ => []
      | None => [doRun i inst tmpOutDir make_script [] (count fl =? 1)]
      end
    end
  else [].
Proof.
  unfold Gomote.setup_instance, Gomote.make_script, invoke.
  destruct (setup fl), (res_getGOROOT te), (res_doPush te), (count fl =? 1);
    cbn; try done; omap_norm; omap_Write; done.
Qed.

(** The task, when the creation meets no error. *)
Lemma task_created :
  creation_ok env i = true →
  let inst := recorded env i in
  let ul := updateLoop (rpc_stream (tasks env i)) "" in
  let su := setup_instance (tasks env i) inst in
  task =
  (Call (CreateInstance i (builderType fl)) ::
     ul.1 ++ Println inst :: (if group_set then [Append inst] else []) ++ su.1,
   su.2).
Proof.
  unfold creation_ok. intros [Hc Hs]%andb_true_iff.
  apply bool_decide_eq_true in Hc.
  destruct (updateLoop_no_error _ "" Hs) as (Hr & _).
  unfold Gomote.task. rewrite Hc. fold (recorded env i) in Hr.
  simpl. destruct (Gomote.updateLoop fl env i _ "") as [acts r].
  simpl in Hr. subst r. simpl.
  destruct (Gomote.setup_instance fl env tmpOutDir i _ _) as [acts' r'].
  destruct group_set; reflexivity.
Qed.

(** The task, when the creation meets an error. *)
Lemma task_not_created :
  creation_ok env i = false →
  ∃ acts err n,
    task = (Call (CreateInstance i (builderType fl)) :: acts, Some err) ∧
    omap called acts = replicate n (Recv i) ∧
    omap printed acts = [] ∧ omap appended acts = [] ∧ omap handed acts = [].
Proof.
  unfold creation_ok. intros Hc. unfold Gomote.task.
  destruct (rpc_CreateInstance (tasks env i)) as [err|] eqn:Hrpc.
  { exists [], (Errorf_create (statusFromError env err)), 0%nat. done. }
  simpl in Hc.
  destruct (stream_cases (rpc_stream (tasks env i)))
    as [Hs|(us & err & rest & Hs & Hus)]; [congruence|].
  destruct (updateLoop_first_error us err rest "" Hus) as (Hr & Hcalls & ?).
  rewrite <-Hs in Hr, Hcalls, H. simpl.
  destruct (Gomote.updateLoop fl env i _ "") as [acts r].
  simpl in *. subst r. simpl. rewrite app_nil_r.
  by exists acts, (Errorf_create_n (Z.of_nat i + 1) (statusFromError env err)),
          (S (length us)).
Qed.

Local Abbreviation eg_Go := (eg_Go fl env group_set tmpOutDir i).
Local Abbreviation task_result := (task_result fl env group_set tmpOutDir i).

Lemma eg_Go_handed : omap handed eg_Go = [(i, task_result)].
Proof.
  unfold Gomote.eg_Go, Gomote.task_result.
  destruct (creation_ok env i) eqn:Hc.
  - rewrite (task_created Hc). cbn [snd].
    destruct (updateLoop_no_error (rpc_stream (tasks env i)) "")
      as (_ & _ & _ & _ & Hh).
    { unfold creation_ok in Hc. by apply andb_true_iff in Hc as [_ ?]. }
    destruct (setup_instance_writes (tasks env i) (recorded env i))
      as (_ & _ & Hh').
    destruct group_set; omap_norm;
    by rewrite Hh, Hh'.
  - destruct (task_not_created Hc) as (acts & err & n & -> & _ & _ & _ & Hh).
    omap_norm. cbn [snd]. by rewrite Hh.
Qed.

(** What a task leaves on the standard output: the identifier of its
    instance, if it is created, and then the lines of its setup steps. *)
Lemma eg_Go_printed : omap printed eg_Go = task_stdout fl env tmpOutDir i.
Proof.
  unfold Gomote.eg_Go, task_stdout, setup_written.
  destruct (creation_ok env i) eqn:Hc.
  - rewrite (task_created Hc).
    destruct (updateLoop_no_error (rpc_stream (tasks env i)) "")
      as (_ & _ & Hp & _).
    { unfold creation_ok in Hc. by apply andb_true_iff in Hc as [_ ?]. }
    destruct (setup_instance_writes (tasks env i) (recorded env i))
      as (Hp' & _).
    rewrite setup_instance_called in Hp'. fold (make_script) in Hp'.
    destruct group_set; omap_norm;
    by rewrite Hp, Hp'.
  - destruct (task_not_created Hc) as (acts & err & n & -> & _ & Hp & _).
    omap_norm. by rewrite Hp.
Qed.

Lemma eg_Go_appended :
  omap appended eg_Go =
  if group_set && creation_ok env i then [recorded env i] else [].
Proof.
  unfold Gomote.eg_Go.
  destruct (creation_ok env i) eqn:Hc.
  - rewrite (task_created Hc).
    destruct (updateLoop_no_error (rpc_stream (tasks env i)) "")
      as (_ & _ & _ & Ha & _).
    { unfold creation_ok in Hc. by apply andb_true_iff in Hc as [_ ?]. }
    destruct (setup_instance_writes (tasks env i) (recorded env i))
      as (_ & Ha' & _).
    destruct group_set; omap_norm;
    by rewrite Ha, Ha'.
  - destruct (task_not_created Hc) as (acts & err & n & -> & _ & _ & Ha & _).
    rewrite andb_false_r. omap_norm. by rewrite Ha.
Qed.

(** The calls of a task: the creation call, the reads, and the setup
    steps if the creation meets no error. *)
Lemma eg_Go_called :
  ∃ n,
    omap called eg_Go =
    CreateInstance i (builderType fl) :: replicate n (Recv i) ++
    if creation_ok env i
    then omap called (setup_instance (tasks env i) (recorded env i)).1
    else [].
Proof.
  unfold Gomote.eg_Go.
  destruct (creation_ok env i) eqn:Hc.
  - rewrite (task_created Hc).
    destruct (updateLoop_no_error (rpc_stream (tasks env i)) "")
      as (_ & Hcalls & _).
    { unfold creation_ok in Hc. by apply andb_true_iff in Hc as [_ ?]. }
    exists (S (length (rpc_stream (tasks env i)))).
    destruct group_set; omap_norm; by rewrite Hcalls.
  - destruct (task_not_created Hc) as (acts & err & n & -> & Hcalls & _).
    exists n. omap_norm. by rewrite Hcalls.
Qed.

(** A task returns no error when its pipeline meets none, and only then. *)
Lemma task_result_None : task_result = None ↔ pipeline_ok fl env i = true.
Proof.
  unfold Gomote.task_result, pipeline_ok.
  destruct (creation_ok env i) eqn:Hc.
  - rewrite (task_created Hc). cbn [snd andb].
    destruct (setup fl) eqn:Hsetup.
    + rewrite setup_instance_result by done. simpl.
      unfold goroot_ok, push_ok, run_ok.
      destruct (res_getGOROOT (tasks env i)); [|done].
      destruct (res_doPush (tasks env i)); [done|].
      destruct (res_doRun (tasks env i)); done.
    + by rewrite setup_instance_off.
  - destruct (task_not_created Hc) as (acts & err & n & -> & _). done.
Qed.
End one_task.

(** ** All the tasks *)

Lemma omap_concat_fmap {A B C} (f : A → option B) (g : C → list A) l :
  omap f (concat (g <$> l)) = l ≫= (λ i, omap f (g i)).
Proof.
  induction l as [|x l IH]; [done|].
  rewrite fmap_cons. cbn [concat]. by rewrite omap_app, IH.
Qed.

Lemma bind_singleton {A B} (f : A → B) (l : list A) :
  l ≫= (λ i, [f i]) = f <$> l.
Proof. induction l as [|x l IH]; [done|]. by rewrite bind_cons, IH. Qed.

Lemma bind_if_singleton {A B} (p : A → bool) (f : A → B) (l : list A) :
  l ≫= (λ i, if p i then [f i] else []) = f <$> filter (λ i, p i = true) l.
Proof.
  induction l as [|x l IH]; [done|].
  rewrite bind_cons, IH, filter_cons.
  destruct (p x); [by rewrite decide_True|by rewrite decide_False].
Qed.

Section first_error.
Import Gomote.

Lemma first_error_None rs :
  first_error rs = None ↔ ∀ i err, (i, err) ∈ rs → err = None.
Proof.
  induction rs as [|[j [e|]] rs IH]; simpl.
  - split; [|done]. intros _ i err H. by inv H.
  - split; [done|]. intros H. by apply (H j), list_elem_of_here.
  - rewrite IH. split.
    + intros H i err [[= -> ->]|?]%elem_of_cons; [done|]. by eapply H.
    + intros H i err ?. eapply H. by right.
Qed.

(** The error kept is that of the first task, in the order of the returns,
    that returned one. *)
Lemma first_error_Some rs err :
  first_error rs = Some err ↔
  ∃ before i after,
    rs = before ++ (i, Some err) :: after ∧
    ∀ j e, (j, e) ∈ before → e = None.
Proof.
  induction rs as [|[j [e|]] rs IH]; simpl.
  - split; [done|]. intros ([|? ?] & ? & ? & ? & _); done.
  - split.
    + intros [= ->]. exists [], j, rs. split; [done|]. intros ? ? H. by inv H.
    + intros ([|[j' e'] before] & i & after & Heq & Hb); simpl in Heq.
      * congruence.
      * specialize (Hb j' e' (list_elem_of_here _ _)). congruence.
  - rewrite IH. split.
    + intros (before & i & after & -> & Hb).
      exists ((j, None) :: before), i, after. split; [done|].
      intros ? ? [[= -> ->]|?]%elem_of_cons; [done|]. by eapply Hb.
    + intros ([|[j' e'] before] & i & after & Heq & Hb); simpl in Heq;
        [congruence|].
      exists before, i, after. split; [congruence|].
      intros ? ? ?. eapply Hb. by right.
Qed.

End first_error.

Section all_tasks.
Import Gomote.
Context (fl : flags) (env : environment) (group : option groupData).
Context (tmpOutDir : string) (sched : list nat).

Local Abbreviation group_set := (bool_decide (group ≠ None)).
Local Abbreviation eg_Go := (eg_Go fl env group_set tmpOutDir).
Local Abbreviation task_result := (task_result fl env group_set tmpOutDir).

(** What [Create] does, seen from the state [w] in which [eg.Wait] returns:
    every task that created its instance has printed its identifier and, if
    there is a group, appended it; the setup steps have written their
    lines; every task has returned; the error group holds the first error
    returned. *)
Lemma Create_run :
  ∃ w new,
    stdout w ≡ₚ indices fl ≫= task_stdout fl env tmpOutDir ∧
    Gomote.group w =
      (λ g, {| Name := Name g; Instances := Instances g ++ new |}) <$> group ∧
    new ≡ₚ recorded env <$> filter (λ i, creation_ok env i = true) (indices fl) ∧
    returned w ≡ₚ (λ i, (i, task_result i)) <$> indices fl ∧
    calls w ≡ₚ indices fl ≫= (λ i, omap called (eg_Go i)) ∧
    Create fl env group tmpOutDir sched =
      match first_error (returned w) with
      | Some err => (Some err, w)
      | None =>
        match Gomote.group w with
        | Some g => (res_storeGroup env g, call_storeGroup g w)
        | None => (None, w)
        end
      end.
Proof.
  unfold Create. cbv zeta.
  destruct (eg_Wait_executed sched (eg_Go <$> indices fl) (init group))
    as (m & Hm & ->).
  set (w := foldl apply (init group) m).
  assert (eg_err w = first_error (returned w)) as ->
    by by apply foldl_apply_eg_err.
  exists w, (if group_set then omap appended m
             else recorded env <$> filter (λ i, creation_ok env i = true) (indices fl)).
  split; [|split; [|split; [|split; [|split]]]]; [..|done].
  - unfold w. rewrite foldl_apply_stdout, Hm, omap_concat_fmap. simpl.
    apply reflexive_eq. apply list_bind_ext; [|done]. intros i. apply eg_Go_printed.
  - unfold w. rewrite foldl_apply_group. simpl.
    destruct group; [|done]. by rewrite bool_decide_true.
  - destruct group as [g|].
    + rewrite bool_decide_true by done.
      rewrite Hm, omap_concat_fmap, <-bind_if_singleton. 
      apply reflexive_eq. apply list_bind_ext; [|done]. intros i.
      rewrite eg_Go_appended. by rewrite bool_decide_true.
    + by rewrite bool_decide_false by naive_solver.
  - unfold w. rewrite foldl_apply_returned, Hm, omap_concat_fmap. simpl.
    rewrite <-bind_singleton. 
    apply reflexive_eq. apply list_bind_ext; [|done]. intros i. apply eg_Go_handed.
  - unfold w. by rewrite foldl_apply_calls, Hm, omap_concat_fmap.
Qed.
End all_tasks.

Section create_spec.
Import Gomote.
Context (fl : flags) (env : environment) (group : option groupData).
Context (tmpOutDir : string) (sched : list nat).

Local Abbreviation group_set := (bool_decide (group ≠ None)).
Local Abbreviation eg_Go := (eg_Go fl env group_set tmpOutDir).
Local Abbreviation task_result := (task_result fl env group_set tmpOutDir).
Local Abbreviation result := (Create fl env group tmpOutDir sched).
Local Abbreviation created :=
  (recorded env <$> filter (λ i, creation_ok env i = true) (indices fl)).

(** [Create] seen from its result. *)
Lemma Create_spec :
  ∃ new tcalls,
    stdout result.2 ≡ₚ indices fl ≫= task_stdout fl env tmpOutDir ∧
    Gomote.group result.2 =
      (λ g, {| Name := Name g; Instances := Instances g ++ new |}) <$> group ∧
    new ≡ₚ created ∧
    returned result.2 ≡ₚ (λ i, (i, task_result i)) <$> indices fl ∧
    tcalls ≡ₚ indices fl ≫= (λ i, omap called (eg_Go i)) ∧
    calls result.2 =
      tcalls ++
      match first_error (returned result.2) with
      | Some _ => []
      | None => storeGroup <$> option_list (Gomote.group result.2)
      end ∧
    result.1 =
      match first_error (returned result.2) with
      | Some err => Some err
      | None => Gomote.group result.2 ≫= res_storeGroup env
      end.
Proof.
  destruct (Create_run fl env group tmpOutDir sched)
    as (w & new & Hout & Hgroup & Hnew & Hret & Hcalls & ->).
  exists new, (calls w).
  destruct (first_error (returned w)) as [err|] eqn:Herr; cbn [fst snd].
  { rewrite Herr, app_nil_r. done. }
  destruct (Gomote.group w) as [g|] eqn:Hg; cbn [fst snd call_storeGroup
    Gomote.group returned stdout calls]; rewrite Herr, ?Hg, ?app_nil_r; done.
Qed.

Lemma returned_elem i err :
  (i, err) ∈ returned result.2 ↔ i ∈ indices fl ∧ err = task_result i.
Proof.
  destruct Create_spec as (_ & _ & _ & _ & _ & Hret & _).
  rewrite Hret, list_elem_of_fmap. split.
  - intros (j & [= -> ->] & ?). done.
  - intros [? ->]. by exists i.
Qed.

(** No task returned an error: every pipeline went through. *)
Lemma no_error_returned :
  first_error (returned result.2) = None ↔
  forallb (pipeline_ok fl env) (indices fl) = true.
Proof.
  rewrite first_error_None, forallb_forall. split.
  - intros H i Hi%list_elem_of_In.
    apply (task_result_None fl env group_set tmpOutDir i).
    apply (H i). by apply returned_elem.
  - intros H i err [Hi ->]%returned_elem.
    apply (task_result_None fl env group_set tmpOutDir i), H.
    by apply list_elem_of_In.
Qed.

(** The calls made, apart from the call to [storeGroup], are those of the
    tasks. *)
Lemma calls_elem c :
  is_storeGroup c = false →
  c ∈ calls result.2 ↔ ∃ i, i ∈ indices fl ∧ c ∈ omap called (eg_Go i).
Proof.
  intros Hc.
  destruct Create_spec as (_ & tcalls & _ & _ & _ & _ & Ht & -> & _).
  rewrite elem_of_app, Ht, list_elem_of_bind. split.
  - intros [(i & ? & ?)|Hs]; [by exists i|].
    destruct (first_error _); [by inv Hs|].
    apply list_elem_of_fmap in Hs as (g & -> & _). done.
  - intros (i & ? & ?). left. by exists i.
Qed.

Lemma task_calls_not_storeGroup i c :
  c ∈ omap called (eg_Go i) → is_storeGroup c = false.
Proof.
  destruct (eg_Go_called fl env group_set tmpOutDir i) as (n & ->).
  rewrite elem_of_cons, elem_of_app. intros [->|[H|H]]; [done| |].
  - by apply elem_of_replicate in H as [-> _].
  - destruct (creation_ok env i); [|by inv H].
    rewrite setup_instance_called in H.
    destruct (setup fl); [|by inv H].
    apply elem_of_cons in H as [->|H]; [done|].
    destruct (res_getGOROOT _); [|by inv H].
    apply elem_of_cons in H as [->|H]; [done|].
    destruct (res_doPush _); [by inv H|].
    by apply list_elem_of_singleton in H as ->.
Qed.
End create_spec.

(** ** The calls of one task in a run *)

Lemma filter_none {A} (P : A → Prop) `{!∀ x, Decision (P x)} (l : list A) :
  (∀ x, x ∈ l → ¬ P x) → filter P l = [].
Proof.
  induction l as [|x l IH]; intros Hl; [done|].
  rewrite filter_cons, decide_False by (apply Hl; by left).
  apply IH. intros y ?. apply Hl. by right.
Qed.

Ltac omap_calls :=
  repeat first [rewrite omap_app | rewrite omap_cons | rewrite omap_nil];
  cbn [Gomote.called Observe.said Gomote.to_stderr option_list option_rect app];
  rewrite ?app_nil_r, <-?app_assoc; cbn [app].

Section task_order.
Import Gomote Observe.

Lemma updates_before_error_all us :
  forallb is_update us = true → updates_before_error us = us.
Proof.
  induction us as [|[u|e] us IH]; intros Hus; [done| |done].
  simpl. by rewrite IH.
Qed.

Lemma updates_before_error_app us err rest :
  forallb is_update us = true →
  updates_before_error (us ++ RecvError err :: rest) = us.
Proof.
  induction us as [|[u|e] us IH]; intros Hus; [done| |done].
  simpl. by rewrite IH.
Qed.


(** The calls of a task, in the order in which it makes them. *)
Lemma eg_Go_task_calls fl env group_set tmpOutDir i :
  omap called (eg_Go fl env group_set tmpOutDir i)
  = task_calls fl env tmpOutDir i.
Proof.
  unfold task_calls, reads, setup_calls, eg_Go.
  destruct (creation_ok env i) eqn:Hc.
  - rewrite (task_created fl env group_set tmpOutDir i Hc).
    unfold creation_ok in Hc. apply andb_true_iff in Hc as [Hrpc Hs].
    apply bool_decide_eq_true in Hrpc. rewrite Hrpc.
    rewrite (updates_before_error_all _ Hs).
    destruct (updateLoop_no_error fl env i (rpc_stream (tasks env i)) "" Hs)
      as (_ & Hcalls & _).
    destruct group_set; omap_calls;
      by rewrite Hcalls, setup_instance_called.
  - unfold task. unfold creation_ok in Hc.
    destruct (rpc_CreateInstance (tasks env i)) as [err|] eqn:Hrpc; [done|].
    simpl in Hc.
    destruct (stream_cases (rpc_stream (tasks env i)))
      as [Hs|(us & err & rest & Hs & Hus)]; [congruence|].
    rewrite Hs, (updates_before_error_app _ _ _ Hus).
    destruct (updateLoop_first_error fl env i us err rest "" Hus)
      as (Hr & Hcalls & _).
    simpl. destruct (updateLoop fl env i _ "") as [acts r].
    simpl in *. subst r. simpl. rewrite app_nil_r.
    change (list_omap action call called (acts ++ [Return i
      (Some (Errorf_create_n (Z.of_nat i + 1) (statusFromError env err)))]))
      with (omap called (acts ++ [Return i
      (Some (Errorf_create_n (Z.of_nat i + 1) (statusFromError env err)))])).
    omap_calls. by rewrite Hcalls.
Qed.

Lemma filter_all {A} (P : A → Prop) `{!∀ x, Decision (P x)} (l : list A) :
  (∀ x, x ∈ l → P x) → filter P l = l.
Proof.
  induction l as [|x l IH]; intros Hl; [done|].
  rewrite filter_cons, decide_True by (apply Hl; by left).
  f_equal. apply IH. intros y ?. apply Hl. by right.
Qed.

Lemma filter_nil_elem {A} (P : A → Prop) `{!∀ x, Decision (P x)} (l : list A) :
  filter P l = [] → ∀ x, x ∈ l → ¬ P x.
Proof.
  intros Hnil x Hx HP.
  assert (x ∈ filter P l) as Hin by (by apply list_elem_of_filter).
  rewrite Hnil in Hin. by inv Hin.
Qed.

(** In an interleaving the actions of one task keep their order: what a
    property holding of the actions of task [i] alone selects of the
    interleaving is what it selects of the actions of task [i]. *)
Lemma interleaving_filter (P : action → Prop) `{!∀ a, Decision (P a)}
    (i : nat) qs m :
  interleaving qs m →
  (∀ j q, j ≠ i → qs !! j = Some q → filter P q = []) →
  filter P m = filter P (default [] (qs !! i)).
Proof.
  induction 1 as [qs Hqs|qs k a q m Hk _ IH]; intros Hothers.
  - destruct (qs !! i) as [q|] eqn:Hi; [|done]. simpl.
    apply concat_nil_Forall in Hqs. rewrite Forall_forall in Hqs.
    rewrite (Hqs q); [done|]. by eapply list_elem_of_lookup_2.
  - destruct (decide (k = i)) as [->|Hne].
    + rewrite Hk. simpl.
      rewrite list_lookup_insert_eq in IH by (by eapply lookup_lt_Some).
      rewrite !filter_cons. simpl in IH. rewrite IH; [done|].
      intros j q' Hj. rewrite list_lookup_insert_ne by done. by apply Hothers.
    + pose proof (Hothers k (a :: q) Hne Hk) as Hak.
      rewrite list_lookup_insert_ne in IH by done.
      rewrite filter_cons in Hak |- *.
      destruct (decide (P a)); [done|].
      apply IH. intros j q' Hj Hq'.
      destruct (decide (j = k)) as [->|Hjk].
      * rewrite list_lookup_insert_eq in Hq' by (by eapply lookup_lt_Some).
        by injection Hq' as <-.
      * rewrite list_lookup_insert_ne in Hq' by done. by eapply Hothers.
Qed.

Lemma filter_omap_called (i : nat) (m : list action) :
  filter (λ c, call_task c = Some i) (omap called m)
  = omap called (filter (call_of_task i) m).
Proof.
  induction m as [|a m IH]; [done|].
  rewrite omap_cons, filter_app, (filter_cons (call_of_task i)), IH.
  destruct (decide (call_of_task i a)) as [Ha|Ha]; unfold call_of_task in Ha;
    destruct a as [c| | | | |o]; simpl in Ha; try done;
    rewrite ?omap_cons; cbn [called option_list option_rect];
    rewrite ?filter_nil, ?filter_cons, ?filter_nil; try done.
  - by rewrite decide_True.
  - by rewrite decide_False.
Qed.

Lemma task_calls_task fl env tmpOutDir j c :
  c ∈ task_calls fl env tmpOutDir j → call_task c = Some j.
Proof.
  unfold task_calls, setup_calls.
  rewrite elem_of_cons, elem_of_app, elem_of_replicate.
  intros [-> | [[-> _] | Hc]]; [done..|].
  destruct (creation_ok env j); [|by inv Hc].
  destruct (setup fl); [|by inv Hc].
  apply elem_of_cons in Hc as [-> | Hc]; [done|].
  destruct (res_getGOROOT _); [|by inv Hc].
  apply elem_of_cons in Hc as [-> | Hc]; [done|].
  destruct (res_doPush _); [by inv Hc|].
  by apply list_elem_of_singleton in Hc as ->.
Qed.

(** The calls made when [Create] returns: those of an interleaving of the
    tasks, then the call to [storeGroup] if it is made. *)
Lemma Create_interleaving fl env group tmpOutDir sched :
  ∃ m tail,
    interleaving (eg_Go fl env (bool_decide (group ≠ None)) tmpOutDir
                    <$> indices fl) m ∧
    calls (Create fl env group tmpOutDir sched).2 = omap called m ++ tail ∧
    stderr (Create fl env group tmpOutDir sched).2 = omap said m ∧
    ∀ c, c ∈ tail → is_storeGroup c = true.
Proof.
  unfold Create. cbv zeta.
  destruct (run_interleaving sched
              (eg_Go fl env (bool_decide (group ≠ None)) tmpOutDir
                 <$> indices fl) (init group)) as (m & Hm & ->).
  assert (∀ w, stderr (foldl apply w m) = stderr w ++ omap said m) as Hsaid.
  { clear. induction m as [|a m IH]; intros w; simpl.
    - by rewrite app_nil_r.
    - rewrite IH. destruct a as [| | | | |[]]; simpl;
        rewrite <-?app_assoc, ?app_nil_r; done. }
  set (w := foldl apply (init group) m).
  assert (calls w = omap called m) as Hcalls
    by (unfold w; by rewrite foldl_apply_calls).
  assert (stderr w = omap said m) as Hstderr by (unfold w; by rewrite Hsaid).
  destruct (eg_err w); [exists m, []|destruct (Gomote.group w) as [g|]].
  - cbn [snd]. rewrite app_nil_r. split_and!; try done. intros c Hc. by inv Hc.
  - exists m, [storeGroup g]. cbn [snd call_storeGroup calls stderr].
    rewrite Hcalls. split_and!; try done.
    intros c Hc. by apply list_elem_of_singleton in Hc as ->.
  - exists m, []. cbn [snd]. rewrite app_nil_r. split_and!; try done.
    intros c Hc. by inv Hc.
Qed.

(** The calls of one task among the calls made are those of its own
    actions, in their order, whatever the other tasks do in between. *)
Lemma Create_calls_of_task (fl : flags) (env : environment)
    (group : option groupData) (tmpOutDir : string) (sched : list nat)
    (i : nat) :
  filter (λ c, call_task c = Some i)
         (calls (Create fl env group tmpOutDir sched).2)
  = omap called
      (filter (call_of_task i)
         (default [] ((eg_Go fl env (bool_decide (group ≠ None)) tmpOutDir
                         <$> indices fl) !! i))).
Proof.
  destruct (Create_interleaving fl env group tmpOutDir sched)
    as (m & tail & Hm & -> & _ & Htail).
  rewrite filter_app, (filter_none _ tail), app_nil_r.
  2:{ intros c Hc%Htail Ht. by destruct c. }
  rewrite filter_omap_called.
  rewrite (interleaving_filter _ i _ _ Hm); [done|].
  intros j q Hj Hq. apply filter_none. intros a Ha Hcall.
  rewrite list_lookup_fmap in Hq.
  destruct (indices fl !! j) as [j'|] eqn:Hj'; [|done].
  apply lookup_seq in Hj' as [-> _]. injection Hq as <-.
  unfold call_of_task in Hcall.
  destruct (called a) as [c|] eqn:Hc; [|done]. simpl in Hcall.
  assert (c ∈ omap called (eg_Go fl env (bool_decide (group ≠ None))
                             tmpOutDir (0 + j))) as Hin.
  { apply list_elem_of_omap. by exists a. }
  rewrite eg_Go_task_calls in Hin. apply task_calls_task in Hin.
  simpl in Hin. congruence.
Qed.

(** All the calls of a task are its own. *)
Lemma eg_Go_own_calls fl env group_set tmpOutDir i :
  omap called (filter (call_of_task i) (eg_Go fl env group_set tmpOutDir i))
  = task_calls fl env tmpOutDir i.
Proof.
  rewrite <-filter_omap_called, eg_Go_task_calls.
  apply filter_all. intros c. apply task_calls_task.
Qed.
End task_order.

(** ** The claims on [create] *)

Section create_claims.
Import Gomote Observe.

(** Every task returns nil when every pipeline goes through, and only
    then. *)
Lemma all_nil_pipeline_ok fl env group tmpOutDir :
  all_nil fl env group tmpOutDir = forallb (pipeline_ok fl env) (indices fl).
Proof.
  unfold all_nil. induction (indices fl) as [|i l IH]; [done|].
  simpl. rewrite IH. f_equal.
  apply eq_true_iff_eq. rewrite bool_decide_eq_true.
  apply task_result_None.
Qed.

(** The calls to [storeGroup] are not calls of the tasks. *)
Lemma calls_of_storeGroup fl env group tmpOutDir sched :
  let r := Create fl env group tmpOutDir sched in
  calls_of is_storeGroup r.2 =
  match first_error (returned r.2) with
  | Some _ => []
  | None => storeGroup <$> option_list (Gomote.group r.2)
  end.
Proof.
  cbv zeta. unfold calls_of.
  destruct (Create_spec fl env group tmpOutDir sched)
    as (_ & tcalls & _ & _ & _ & _ & Ht & -> & _).
  rewrite filter_app, filter_none, app_nil_l.
  - destruct (first_error _); [done|].
    by destruct (Gomote.group _).
  - intros c Hc. rewrite Ht in Hc.
    apply list_elem_of_bind in Hc as (i & Hc & _).
    apply task_calls_not_storeGroup in Hc. congruence.
Qed.

(** C1, as the code has it. [storeGroup] is called, once and on the group
    as the tasks left it, when the group is not nil and every task returned
    nil; then [Create] returns what [storeGroup] returns. When a task
    returns an error, [Create] returns an error and [storeGroup] is not
    called. In both cases the group in memory has gained the identifiers
    of the instances created. *)
Theorem storeGroup_after_success_only (fl : flags) (env : environment)
    (group : option groupData) (tmpOutDir : string) (sched : list nat) :
  let r := Create fl env group tmpOutDir sched in
  (if all_nil fl env group tmpOutDir
   then calls_of is_storeGroup r.2 = storeGroup <$> option_list (Gomote.group r.2)
        ∧ r.1 = Gomote.group r.2 ≫= res_storeGroup env
   else calls_of is_storeGroup r.2 = [] ∧ is_Some r.1) ∧
  ∃ new,
    new ≡ₚ recorded env <$> filter (λ i, creation_ok env i = true) (indices fl) ∧
    Gomote.group r.2 =
      (λ g, {| Name := Name g; Instances := Instances g ++ new |}) <$> group.
Proof.
  cbv zeta. split.
  - rewrite calls_of_storeGroup, all_nil_pipeline_ok.
    pose proof (no_error_returned fl env group tmpOutDir sched) as Hok.
    destruct (Create_spec fl env group tmpOutDir sched)
      as (_ & _ & _ & _ & _ & _ & _ & _ & ->).
    destruct (first_error _) as [err|].
    + destruct (forallb _ _); [|by eauto].
      by destruct Hok as [_ Hok]; discriminate Hok.
    + by rewrite (proj1 Hok).
  - destruct (Create_spec fl env group tmpOutDir sched)
      as (new & _ & _ & Hg & Hnew & _).
    by exists new.
Qed.

(** C1, counterexample. The group is not nil, the first task creates its
    instance and the stream of the second gives an RPC error: [Create]
    returns the error of task 2, the group in memory holds the identifier
    of the first instance, and [storeGroup] has not been called. *)
Lemma partial_failure_skips_storeGroup :
  let r := Create (asking 2 false "linux-amd64") second_fails
                  (Some empty_group) "" one_then_other in
  task_result (asking 2 false "linux-amd64") second_fails true "" 0 = None ∧
  r.1 = Some "failed to create buildlet (2): unavailable" ∧
  Gomote.group r.2 = Some {| Name := "g"; Instances := ["id-1"] |} ∧
  invoked is_storeGroup r.2 = false.
Proof. vm_compute. done. Qed.

(** C2, as the code has it. When [Create] returns, every task has
    returned. [Create] returns nil when every task went through its whole
    pipeline without error and, if there is a group, [storeGroup] returned
    nil, and only then. When a task met an error, [Create] returns the
    error of the first task that returned one; what the tasks after it
    returned is dropped. *)
Theorem Create_returns_first_error (fl : flags) (env : environment)
    (group : option groupData) (tmpOutDir : string) (sched : list nat) :
  let r := Create fl env group tmpOutDir sched in
  let task_result := task_result fl env (bool_decide (group ≠ None)) tmpOutDir in
  returned r.2 ≡ₚ (λ i, (i, task_result i)) <$> indices fl ∧
  (∀ i, task_result i = None ↔ pipeline_ok fl env i = true) ∧
  (r.1 = None ↔
     forallb (pipeline_ok fl env) (indices fl) = true ∧
     Gomote.group r.2 ≫= res_storeGroup env = None) ∧
  (forallb (pipeline_ok fl env) (indices fl) = false →
   ∃ before i err after,
     returned r.2 = before ++ (i, Some err) :: after ∧
     (∀ j e, (j, e) ∈ before → e = None) ∧
     r.1 = Some err).
Proof.
  cbv zeta.
  pose proof (no_error_returned fl env group tmpOutDir sched) as Hok.
  destruct (Create_spec fl env group tmpOutDir sched)
    as (_ & _ & _ & _ & _ & Hret & _ & _ & Hres).
  split; [done|]. split; [intros i; apply task_result_None|].
  rewrite Hres. split.
  - destruct (first_error _) as [err|].
    + split; [done|]. intros [Hall _]. by apply Hok in Hall.
    + split; [intros ?; split; [by apply Hok|done] | by intros [_ ?]].
  - intros Hfail. destruct (first_error _) as [err|] eqn:Herr.
    + apply first_error_Some in Herr as (before & i & after & ? & ?).
      by exists before, i, err, after.
    + rewrite (proj1 Hok) in Hfail; done.
Qed.

Lemma Create_returns_first_error_witness :
  ∃ before i err after,
    returned (Create (asking 2 false "linux-amd64") second_fails
                     (Some empty_group) "" one_then_other).2
      = before ++ (i, Some err) :: after ∧
    (∀ j e, (j, e) ∈ before → e = None) ∧
    (Create (asking 2 false "linux-amd64") second_fails
            (Some empty_group) "" one_then_other).1 = Some err.
Proof.
  apply (Create_returns_first_error (asking 2 false "linux-amd64") second_fails
           (Some empty_group) "" one_then_other).
  vm_compute. reflexivity.
Defined.

(** C2, counterexample. The one task goes through its pipeline without
    error and [storeGroup] fails: [Create] returns that error, not nil. *)
Lemma tasks_succeed_storeGroup_fails :
  let fl := asking 1 false "linux-amd64" in
  let env := answering [comes_up "id-1"] (Some "cannot write the group") in
  let r := Create fl env (Some empty_group) "" [] in
  forallb (pipeline_ok fl env) (indices fl) = true ∧
  task_result fl env true "" 0 = None ∧
  r.1 = Some "cannot write the group".
Proof. vm_compute. done. Qed.

(** C3, as the code has it. A COMPLETE update changes the identifier
    recorded and the loop goes on reading: it is left at the end of the
    stream, with the identifier of the last COMPLETE update read (or the
    one held at the start when there is none), or at the first read that
    fails, with an error, whatever was read before. Every update up to
    there has been read. *)
Theorem updateLoop_reads_on (fl : flags) (env : environment) (i : nat)
    (us : list recv) (inst : string) :
  forallb is_update us = true →
  ((updateLoop fl env i us inst).2
     = inl (default inst (last (omap complete_id us))) ∧
   omap called (updateLoop fl env i us inst).1
     = replicate (S (length us)) (Recv i)) ∧
  (∀ err rest,
     (updateLoop fl env i (us ++ RecvError err :: rest) inst).2
       = inr (Errorf_create_n (Z.of_nat i + 1) (statusFromError env err)) ∧
     omap called (updateLoop fl env i (us ++ RecvError err :: rest) inst).1
       = replicate (S (length us)) (Recv i)).
Proof.
  intros Hus. split.
  - by destruct (updateLoop_no_error fl env i us inst Hus) as (? & ? & _).
  - intros err rest.
    by destruct (updateLoop_first_error fl env i us err rest inst Hus)
      as (? & ? & _).
Qed.

Lemma updateLoop_reads_on_witness :
  (updateLoop (asking 1 false "linux-amd64") second_fails 0
     [pending 2; complete "id-1"] "").2 = inl "id-1" ∧
  (updateLoop (asking 1 false "linux-amd64") second_fails 0
     ([pending 2; complete "id-1"] ++ [RecvError "reset"]) "").2
    = inr "failed to create buildlet (1): reset".
Proof.
  destruct (updateLoop_reads_on (asking 1 false "linux-amd64") second_fails 0
              [pending 2; complete "id-1"] "") as [[Hend _] Herr].
  - reflexivity.
  - split; [exact Hend|]. exact (proj1 (Herr "reset" [])).
Defined.

(** C3, counterexample. After a first COMPLETE update the loop reads the
    next update and the end of the stream, three reads in all, and the
    identifier it ends with is the one of the second COMPLETE update. *)
Lemma updateLoop_reads_past_COMPLETE :
  let r := updateLoop (asking 1 false "linux-amd64") second_fails 0
             [complete "id-1"; complete "id-2"] "" in
  r.2 = inl "id-2" ∧ r.2 ≠ inl "id-1" ∧
  omap called r.1 = [Recv 0; Recv 0; Recv 0].
Proof. vm_compute. done. Qed.

(** After a COMPLETE update an error of the stream still fails the task. *)
Example updateLoop_error_after_COMPLETE :
  (updateLoop (asking 1 false "linux-amd64") second_fails 0
     [complete "id-1"; RecvError "reset"] "").2
  = inr "failed to create buildlet (1): reset".
Proof. reflexivity. Qed.

Lemma recorded_elem fl env i :
  i ∈ indices fl → creation_ok env i = true →
  recorded env i ∈
    recorded env <$> filter (λ i, creation_ok env i = true) (indices fl).
Proof.
  intros Hi Hc. apply list_elem_of_fmap_2. by apply list_elem_of_filter.
Qed.

(** One task apart from the others. *)
Lemma Permutation_apart (i : nat) (l : list nat) :
  NoDup l → i ∈ l → l ≡ₚ i :: filter (λ j, j ≠ i) l.
Proof.
  intros Hnd Hi. apply elem_of_Permutation in Hi as [k Hk].
  rewrite Hk in Hnd |- *. apply NoDup_cons in Hnd as [Hik _].
  rewrite filter_cons, decide_False by (by intros ?).
  rewrite filter_all; [done|]. intros j Hj ->. done.
Qed.

(** C4, as the code has it. When the stream of a task ends without error
    and without a COMPLETE update, the loop ends without error with the
    empty identifier. The task prints it: the standard output is made of
    this empty line, of the lines of the setup steps of the task and of
    the lines of the other tasks. With a group, the task appends it: the
    group gains the empty identifier besides those of the other tasks.
    The task then goes on with the empty identifier: its calls are the
    call to CreateInstance, the reads, and, when setup is asked for, the
    setup steps on the empty identifier as far as they get; it returns
    what they return, and nil when no setup is asked for. *)
Theorem stream_ends_without_COMPLETE (fl : flags) (env : environment)
    (group : option groupData) (tmpOutDir : string) (sched : list nat)
    (i : nat) :
  i ∈ indices fl →
  rpc_CreateInstance (tasks env i) = None →
  forallb is_update (rpc_stream (tasks env i)) = true →
  omap complete_id (rpc_stream (tasks env i)) = [] →
  let r := Create fl env group tmpOutDir sched in
  let te := tasks env i in
  let others := filter (λ j, j ≠ i) (indices fl) in
  let steps :=
    if setup fl then
      getGOROOT i ::
      match res_getGOROOT te with
      | inr _ => []
      | inl goroot =>
        doPush i "" goroot false (count fl =? 1) ::
        match res_doPush te with
        | Some _ => []
        | None => [doRun i "" tmpOutDir (make_script fl) [] (count fl =? 1)]
        end
      end
    else [] in
  let result :=
    if setup fl then
      match res_getGOROOT te with
      | inr err => Some err
      | inl _ => match res_doPush te with
                 | Some err => Some err
                 | None => res_doRun te
                 end
      end
    else None in
  (updateLoop fl env i (rpc_stream te) "").2 = inl "" ∧
  stdout r.2 ≡ₚ ("" :: omap to_stdout (steps ≫= progress env)) ++
                (others ≫= task_stdout fl env tmpOutDir) ∧
  (∃ new,
     Gomote.group r.2 =
       (λ g, {| Name := Name g; Instances := Instances g ++ new |}) <$> group ∧
     new ≡ₚ "" :: (recorded env <$>
                     filter (λ j, creation_ok env j = true) others)) ∧
  filter (λ c, call_task c = Some i) (calls r.2)
    = CreateInstance i (builderType fl) ::
      replicate (S (length (rpc_stream te))) (Recv i) ++ steps ∧
  (∀ err, (i, err) ∈ returned r.2 ↔ err = result).
Proof.
  intros Hi Hrpc Hs Hnone. cbv zeta.
  assert (creation_ok env i = true) as Hc.
  { unfold creation_ok. by rewrite Hrpc, Hs. }
  assert (recorded env i = "") as Hrec.
  { unfold recorded. by rewrite Hnone. }
  assert (indices fl ≡ₚ i :: filter (λ j, j ≠ i) (indices fl)) as Hperm.
  { apply Permutation_apart; [apply NoDup_seq|done]. }
  destruct (Create_spec fl env group tmpOutDir sched)
    as (new & _ & Hout & Hg & Hnew & _).
  split; [|split; [|split; [|split]]].
  - destruct (updateLoop_no_error fl env i _ "" Hs) as (-> & _).
    by rewrite Hnone.
  - rewrite Hout. rewrite Hperm at 1. rewrite bind_cons.
    unfold task_stdout at 1, setup_written, setup_calls.
    by rewrite Hc, Hrec.
  - exists new. split; [done|]. rewrite Hnew. rewrite Hperm at 1.
    by rewrite filter_cons, decide_True, fmap_cons, Hrec by done.
  - rewrite Create_calls_of_task, list_lookup_fmap.
    unfold indices in Hi |- *. apply elem_of_seq in Hi.
    rewrite lookup_seq_lt by lia. cbn [fmap option_fmap option_map default id].
    change (0 + i)%nat with i. rewrite eg_Go_own_calls.
    unfold task_calls, reads, setup_calls.
    by rewrite Hrpc, Hc, Hrec, (updates_before_error_all _ Hs).
  - intros err. rewrite returned_elem. unfold task_result.
    rewrite (task_created _ _ _ _ _ Hc). cbn [snd].
    destruct (setup fl) eqn:Hsetup.
    + rewrite setup_instance_result by done. naive_solver.
    + rewrite setup_instance_off by done. naive_solver.
Qed.

Lemma stream_ends_without_COMPLETE_witness :
  let r := Create (asking 1 true "linux-amd64")
                  (answering [streaming [pending 1]] None)
                  (Some empty_group) "/tmp/gomote1" [] in
  stdout r.2 ≡ₚ [""] ∧
  filter (λ c, Observe.call_task c = Some 0%nat) (calls r.2)
    = [CreateInstance 0 "linux-amd64"; Recv 0; Recv 0; getGOROOT 0;
       doPush 0 "" "/usr/local/go" false true;
       doRun 0 "" "/tmp/gomote1" "go/src/make.bash" [] true] ∧
  (0%nat, None) ∈ returned r.2.
Proof.
  destruct (stream_ends_without_COMPLETE (asking 1 true "linux-amd64")
              (answering [streaming [pending 1]] None)
              (Some empty_group) "/tmp/gomote1" [] 0)
    as (_ & Hout & _ & Hcalls & Hret).
  - vm_compute. apply list_elem_of_here.
  - reflexivity.
  - reflexivity.
  - reflexivity.
  - split; [exact Hout|]. split; [exact Hcalls|].
    apply (proj2 (Hret None)). reflexivity.
Defined.

(** C4, counterexample. Setup is asked for and the stream ends without a
    COMPLETE update: the task goes on to push the source root to the
    instance with the empty identifier; push fails, the task returns that
    error and so does [Create]. *)
Lemma stream_ends_then_setup_fails :
  let fl := asking 1 true "linux-amd64" in
  let env := answering
    [ {| rpc_CreateInstance := None; rpc_stream := [pending 1];
         res_getGOROOT := inl "/usr/local/go";
         res_doPush := Some "no such instance";
         res_doRun := None |} ] None in
  let r := Create fl env None "/tmp/gomote1" [] in
  omap complete_id (rpc_stream (tasks env 0)) = [] ∧
  stdout r.2 = [""] ∧
  calls_of (is_doPush 0) r.2 = [doPush 0 "" "/usr/local/go" false true] ∧
  returned r.2 = [(0%nat, Some "no such instance")] ∧
  r.1 = Some "no such instance".
Proof. vm_compute. done. Qed.

Lemma all_created fl env :
  forallb (pipeline_ok fl env) (indices fl) = true →
  filter (λ i, creation_ok env i = true) (indices fl) = indices fl.
Proof.
  rewrite forallb_forall. intros Hall.
  induction (indices fl) as [|i l IH]; [done|].
  rewrite filter_cons, decide_True.
  - f_equal. apply IH. intros j ?. apply Hall. by right.
  - specialize (Hall i (or_introl eq_refl)).
    unfold pipeline_ok in Hall. by apply andb_true_iff in Hall as [? _].
Qed.

Lemma omap_bind {A B C} (f : A → option B) (g : C → list A) (l : list C) :
  omap f (l ≫= g) = l ≫= (λ i, omap f (g i)).
Proof.
  induction l as [|x l IH]; [done|]. by rewrite !bind_cons, omap_app, IH.
Qed.

(** The tasks of [Create], run one after the other in a given order. *)
Lemma Create_in_order fl env group tmpOutDir order :
  order ≡ₚ indices fl →
  ∃ sched,
    Gomote.group (Create fl env group tmpOutDir sched).2 =
    (λ g, {| Name := Name g;
             Instances := Instances g ++
               (order ≫= λ i,
                  omap appended
                    (eg_Go fl env (bool_decide (group ≠ None)) tmpOutDir i)) |})
      <$> group.
Proof.
  intros Horder.
  set (qs := eg_Go fl env (bool_decide (group ≠ None)) tmpOutDir
               <$> indices fl).
  assert (∀ i, i ∈ order → (i < Z.to_nat (count fl))%nat) as Hlt.
  { intros i Hi. rewrite Horder in Hi. apply elem_of_seq in Hi. lia. }
  assert (∀ i, i ∈ order →
            qs !! i = Some (eg_Go fl env (bool_decide (group ≠ None))
                                  tmpOutDir i)) as Hqs.
  { intros i Hi%Hlt. unfold qs, indices.
    by rewrite list_lookup_fmap, lookup_seq_lt. }
  assert (interleaving qs (order ≫= λ i, default [] (qs !! i))) as Hm.
  { apply interleaving_order.
    - rewrite Horder. apply NoDup_seq.
    - intros i Hi%Hlt. unfold qs, indices.
      by rewrite length_fmap, length_seq.
    - intros i q Hq Hnot. exfalso. apply Hnot. rewrite Horder.
      apply lookup_lt_Some in Hq. unfold qs, indices in Hq.
      rewrite length_fmap, length_seq in Hq. apply elem_of_seq. lia. }
  rewrite (bind_ext_elem _ (eg_Go fl env (bool_decide (group ≠ None))
                                  tmpOutDir)) in Hm
    by (intros i Hi; by rewrite (Hqs i Hi)).
  destruct (interleaving_run _ _ Hm) as [sched Hrun].
  exists sched. unfold Create. cbv zeta. fold qs. rewrite Hrun.
  assert (Gomote.group (foldl apply (init group)
            (order ≫= eg_Go fl env (bool_decide (group ≠ None)) tmpOutDir))
          = (λ g, {| Name := Name g;
               Instances := Instances g ++
                 (order ≫= λ i,
                    omap appended
                      (eg_Go fl env (bool_decide (group ≠ None))
                             tmpOutDir i)) |}) <$> group) as Hg.
  { by rewrite foldl_apply_group, omap_bind. }
  destruct (eg_err _); [done|].
  destruct (Gomote.group (foldl _ _ _)) eqn:Hg'; by rewrite <-Hg.
Qed.

(** C5, as the code has it. When every task goes through without error,
    the group supplied keeps the identifiers it had and gains, after them,
    one identifier for each of the [count] tasks, the one the task
    recorded, in some order of the tasks; the group is then free of
    duplicates if what it had and what the tasks recorded are all
    different. The order is that of the appends and the interleaving
    decides it: every order of the tasks is the one of some run. *)
Theorem group_gains_one_id_per_task (fl : flags) (env : environment)
    (g0 : groupData) (tmpOutDir : string) :
  all_nil fl env (Some g0) tmpOutDir = true →
  (∀ sched,
     ∃ order,
       order ≡ₚ indices fl ∧
       Gomote.group (Create fl env (Some g0) tmpOutDir sched).2
         = Some {| Name := Name g0;
                   Instances := Instances g0 ++ (recorded env <$> order) |} ∧
       length (recorded env <$> order) = Z.to_nat (count fl) ∧
       (∀ i, i ∈ indices fl → recorded env i ∈ recorded env <$> order) ∧
       (NoDup (Instances g0 ++ (recorded env <$> indices fl)) →
        NoDup (Instances g0 ++ (recorded env <$> order)))) ∧
  (∀ order,
     order ≡ₚ indices fl →
     ∃ sched,
       Gomote.group (Create fl env (Some g0) tmpOutDir sched).2
         = Some {| Name := Name g0;
                   Instances := Instances g0 ++ (recorded env <$> order) |}).
Proof.
  rewrite all_nil_pipeline_ok. intros Hall. split.
  - intros sched.
    destruct (Create_spec fl env (Some g0) tmpOutDir sched)
      as (new & _ & _ & Hg & Hnew & _).
    rewrite (all_created _ _ Hall) in Hnew.
    apply fmap_Permutation_inv in Hnew as (order & Horder & ->).
    exists order. split; [done|]. split; [done|]. split; [|split].
    + rewrite length_fmap, Horder. unfold indices. apply length_seq.
    + intros i Hi. apply list_elem_of_fmap_2. by rewrite Horder.
    + by rewrite Horder.
  - intros order Horder.
    destruct (Create_in_order fl env (Some g0) tmpOutDir order Horder)
      as [sched Hg].
    exists sched. rewrite Hg. cbn [fmap option_fmap option_map].
    rewrite <-bind_singleton. do 3 f_equal. apply bind_ext_elem. intros i Hi.
    rewrite eg_Go_appended, bool_decide_true by done.
    rewrite Horder in Hi. apply list_elem_of_In in Hi.
    rewrite forallb_forall in Hall. specialize (Hall i Hi).
    unfold pipeline_ok in Hall. apply andb_true_iff in Hall as [-> _]. done.
Qed.

Lemma group_gains_one_id_per_task_witness :
  (∃ order,
     order ≡ₚ [0; 1]%nat ∧
     Gomote.group
       (Create (asking 2 false "linux-amd64")
               (answering [comes_up "id-1"; comes_up "id-2"] None)
               (Some empty_group) "" [1; 0; 1; 1; 1; 0; 1; 1; 1; 1]%nat).2
       = Some {| Name := "g";
                 Instances :=
                   recorded (answering [comes_up "id-1"; comes_up "id-2"] None)
                     <$> order |}) ∧
  (∃ sched,
     Gomote.group
       (Create (asking 2 false "linux-amd64")
               (answering [comes_up "id-1"; comes_up "id-2"] None)
               (Some empty_group) "" sched).2
       = Some {| Name := "g"; Instances := ["id-2"; "id-1"] |}).
Proof.
  destruct (group_gains_one_id_per_task (asking 2 false "linux-amd64")
              (answering [comes_up "id-1"; comes_up "id-2"] None)
              empty_group "") as [Hany Hevery].
  - reflexivity.
  - split.
    + destruct (Hany [1; 0; 1; 1; 1; 0; 1; 1; 1; 1]%nat)
        as (order & Horder & Hg & _).
      exists order. split; [exact Horder|exact Hg].
    + apply (Hevery [1; 0]%nat). apply perm_swap.
Defined.

(** C5, counterexample. With a group that has a member already, two tasks
    that succeed leave three identifiers in it, not [count]; and two tasks
    whose streams end without a COMPLETE update succeed and leave the
    empty identifier twice. *)
Lemma group_not_count_distinct_ids :
  let fl := asking 2 false "linux-amd64" in
  (let env := answering [comes_up "id-1"; comes_up "id-2"] None in
   let r := Create fl env (Some {| Name := "g"; Instances := ["id-0"] |})
                   "" [] in
   all_nil fl env (Some {| Name := "g"; Instances := ["id-0"] |}) "" = true ∧
   r.1 = None ∧
   Gomote.group r.2
     = Some {| Name := "g"; Instances := ["id-0"; "id-1"; "id-2"] |}) ∧
  (let env := answering [streaming []; streaming []] None in
   let r := Create fl env (Some empty_group) "" [] in
   all_nil fl env (Some empty_group) "" = true ∧ r.1 = None ∧
   Gomote.group r.2 = Some {| Name := "g"; Instances := [""; ""] |}).
Proof. vm_compute. done. Qed.

(** C6, as the code has it. An error of the call to CreateInstance is
    returned by the task with the status text; an error of a read of the
    stream is returned with the index of the task counted from 1 and the
    status text. [Create] returns the error of the first task that
    returns one: the error of this task if no task returned an error
    before it. *)
Theorem creation_error_reported (fl : flags) (env : environment)
    (group : option groupData) (tmpOutDir : string) (sched : list nat)
    (i : nat) :
  i ∈ indices fl →
  let r := Create fl env group tmpOutDir sched in
  let result := task_result fl env (bool_decide (group ≠ None)) tmpOutDir i in
  (∀ err, rpc_CreateInstance (tasks env i) = Some err →
     result = Some (Errorf_create (statusFromError env err))) ∧
  (∀ us err rest,
     rpc_CreateInstance (tasks env i) = None →
     rpc_stream (tasks env i) = us ++ RecvError err :: rest →
     forallb is_update us = true →
     result = Some (Errorf_create_n (Z.of_nat i + 1) (statusFromError env err))) ∧
  (i, result) ∈ returned r.2 ∧
  (∀ before after,
     returned r.2 = before ++ (i, result) :: after →
     (∀ j e, (j, e) ∈ before → e = None) →
     is_Some result → r.1 = result).
Proof.
  intros Hi. cbv zeta. split; [|split; [|split]].
  - intros err Hrpc. unfold task_result, task. by rewrite Hrpc.
  - intros us err rest Hrpc Hs Hus. unfold task_result, task.
    rewrite Hrpc, Hs.
    destruct (updateLoop_first_error fl env i us err rest "" Hus) as (Hr & _).
    simpl. destruct (updateLoop _ _ _ _ _) as [acts r].
    simpl in Hr. by subst r.
  - by apply returned_elem.
  - intros before after Hret Hb [err Herr].
    destruct (Create_spec fl env group tmpOutDir sched)
      as (_ & _ & _ & _ & _ & _ & _ & _ & ->).
    rewrite Herr in Hret |- *.
    assert (first_error (returned (Create fl env group tmpOutDir sched).2)
            = Some err) as ->; [|done].
    apply first_error_Some. by exists before, i, after.
Qed.

Lemma creation_error_reported_witness :
  (Create (asking 2 false "linux-amd64") second_fails
          (Some empty_group) "" one_then_other).1
  = Some (Errorf_create_n 2 "unavailable").
Proof.
  destruct (creation_error_reported (asking 2 false "linux-amd64")
              second_fails (Some empty_group) "" one_then_other 1)
    as (_ & Hrecv & _ & Hfirst).
  - vm_compute. apply list_elem_of_further, list_elem_of_here.
  - etrans; [|exact (Hrecv [] "unavailable" [] eq_refl eq_refl eq_refl)].
    apply (Hfirst [(0%nat, None)] []).
    + vm_compute. reflexivity.
    + intros j e Hj. apply list_elem_of_singleton in Hj. congruence.
    + vm_compute. eauto.
Defined.

(** C6, counterexample. An error of the call to CreateInstance is
    returned without the index of the task; and of two tasks whose streams
    fail, [Create] returns the error of the one that returns first, here
    task 2, and drops the error of task 1. *)
Lemma creation_error_untagged_or_dropped :
  let fl := asking 2 false "linux-amd64" in
  (let env := answering
     [ {| rpc_CreateInstance := Some "unavailable"; rpc_stream := [];
          res_getGOROOT := inl "/usr/local/go";
          res_doPush := None; res_doRun := None |};
       comes_up "id-2" ] None in
   let r := Create fl env None "" [] in
   r.1 = Some "failed to create buildlet: unavailable" ∧
   r.1 ≠ Some (Errorf_create_n 1 "unavailable")) ∧
  (let env := answering [streaming [RecvError "reset"];
                         streaming [RecvError "unavailable"]] None in
   let r := Create fl env None "" [1; 1; 1; 0; 0; 0]%nat in
   task_result fl env false "" 0 = Some "failed to create buildlet (1): reset" ∧
   returned r.2 = [(1%nat, Some "failed to create buildlet (2): unavailable");
                   (0%nat, Some "failed to create buildlet (1): reset")] ∧
   r.1 = Some "failed to create buildlet (2): unavailable").
Proof. vm_compute. done. Qed.

Lemma invoked_true kind w :
  invoked kind w = true ↔ ∃ c, c ∈ calls w ∧ kind c = true.
Proof.
  unfold invoked. rewrite existsb_exists.
  by setoid_rewrite list_elem_of_In.
Qed.

(** The calls a task makes for the setup of its instance. *)
Lemma task_setup_call_forms fl env group_set tmpOutDir j c :
  is_getGOROOT j c || is_doPush j c || is_doRun j c = true →
  ∀ i, c ∈ omap called (eg_Go fl env group_set tmpOutDir i) ↔
       i = j ∧ creation_ok env j = true ∧ setup fl = true ∧
       (c = getGOROOT j ∨
        ∃ goroot, res_getGOROOT (tasks env j) = inl goroot ∧
          (c = doPush j (recorded env j) goroot false (count fl =? 1) ∨
           res_doPush (tasks env j) = None ∧
           c = doRun j (recorded env j) tmpOutDir (make_script fl) []
                     (count fl =? 1))).
Proof.
  intros Hkind i.
  destruct (eg_Go_called fl env group_set tmpOutDir i) as (n & ->).
  rewrite elem_of_cons, elem_of_app, elem_of_replicate.
  destruct (creation_ok env i) eqn:Hc.
  2:{ split.
      - intros [-> | [[-> _] | H]]; [done..|by inv H].
      - intros (-> & ? & _). congruence. }
  rewrite setup_instance_called.
  destruct (setup fl).
  2:{ split.
      - intros [-> | [[-> _] | H]]; [done..|by inv H].
      - by intros (_ & _ & ? & _). }
  split.
  - intros [-> | [[-> _] | H]]; [done..|].
    apply elem_of_cons in H as [-> | H].
    { simpl in Hkind. rewrite !orb_false_r in Hkind.
      apply bool_decide_eq_true in Hkind as ->. rewrite Hc. eauto. }
    destruct (res_getGOROOT (tasks env i)) as [goroot|] eqn:Hg; [|by inv H].
    apply elem_of_cons in H as [-> | H].
    { simpl in Hkind. rewrite orb_false_r in Hkind.
      apply bool_decide_eq_true in Hkind as ->.
      rewrite Hc. split; [done|]. split; [done|]. split; [done|].
      right. exists goroot. rewrite <-Hg. eauto. }
    destruct (res_doPush (tasks env i)) eqn:Hp; [by inv H|].
    apply list_elem_of_singleton in H as ->.
    simpl in Hkind. apply bool_decide_eq_true in Hkind as ->.
    rewrite Hc. split; [done|]. split; [done|]. split; [done|].
    right. exists goroot. rewrite <-Hg, <-Hp. eauto.
  - intros (-> & _ & _ & Hform). right. right.
    destruct Hform as [-> | (goroot & -> & [-> | [-> ->]])];
      set_solver.
Qed.

Lemma setup_call_not_storeGroup j c :
  is_getGOROOT j c || is_doPush j c || is_doRun j c = true →
  is_storeGroup c = false.
Proof. by destruct c. Qed.

(** A setup call of task [j] is among the calls made when task [j] makes
    it. *)
Lemma setup_call_elem fl env group tmpOutDir sched j c :
  is_getGOROOT j c || is_doPush j c || is_doRun j c = true →
  c ∈ calls (Create fl env group tmpOutDir sched).2 ↔
  j ∈ indices fl ∧ creation_ok env j = true ∧ setup fl = true ∧
  (c = getGOROOT j ∨
   ∃ goroot, res_getGOROOT (tasks env j) = inl goroot ∧
     (c = doPush j (recorded env j) goroot false (count fl =? 1) ∨
      res_doPush (tasks env j) = None ∧
      c = doRun j (recorded env j) tmpOutDir (make_script fl) []
                (count fl =? 1))).
Proof.
  intros Hkind.
  rewrite calls_elem by by eapply setup_call_not_storeGroup.
  setoid_rewrite (task_setup_call_forms fl env _ tmpOutDir j c Hkind).
  split.
  - intros (i & Hi & -> & ?). done.
  - intros (Hj & ?). by exists j.
Qed.

(** C7, as the code has it. A task resolves the source root when setup is
    asked for and the creation of its instance met no error, and only
    then; it calls push when moreover the source root was found, and run
    when moreover push succeeded. Without the setup flag no task makes any
    of these calls. *)
Theorem setup_steps_invoked (fl : flags) (env : environment)
    (group : option groupData) (tmpOutDir : string) (sched : list nat)
    (i : nat) :
  let r := Create fl env group tmpOutDir sched in
  invoked (is_getGOROOT i) r.2
    = bool_decide (i ∈ indices fl) && setup fl && creation_ok env i ∧
  invoked (is_doPush i) r.2
    = bool_decide (i ∈ indices fl) && setup fl && creation_ok env i
      && goroot_ok env i ∧
  invoked (is_doRun i) r.2
    = bool_decide (i ∈ indices fl) && setup fl && creation_ok env i
      && goroot_ok env i && push_ok env i.
Proof.
  cbv zeta. split; [|split]; apply eq_true_iff_eq;
    rewrite invoked_true, !andb_true_iff, bool_decide_eq_true;
    unfold goroot_ok, push_ok.
  - split.
    + intros (c & Hc & Hkind).
      rewrite (setup_call_elem _ _ _ _ _ i) in Hc by by rewrite Hkind.
      by destruct Hc as (? & ? & ? & _).
    + intros [[? ?] ?]. exists (getGOROOT i).
      rewrite (setup_call_elem _ _ _ _ _ i)
        by (simpl; by rewrite bool_decide_true).
      simpl. rewrite bool_decide_true by done. eauto 10.
  - split.
    + intros (c & Hc & Hkind).
      rewrite (setup_call_elem _ _ _ _ _ i) in Hc
        by by rewrite Hkind, orb_true_r.
      destruct Hc as (? & ? & ? & [-> | (goroot & Hg & _)]); [done|].
      by rewrite Hg.
    + intros [[[? ?] ?] Hg].
      destruct (res_getGOROOT (tasks env i)) as [goroot|] eqn:Hg'; [|done].
      exists (doPush i (recorded env i) goroot false (count fl =? 1)).
      rewrite (setup_call_elem _ _ _ _ _ i)
        by (simpl; by rewrite bool_decide_true).
      simpl. rewrite bool_decide_true by done. eauto 10.
  - rewrite bool_decide_eq_true. split.
    + intros (c & Hc & Hkind).
      rewrite (setup_call_elem _ _ _ _ _ i) in Hc
        by by rewrite Hkind, !orb_true_r.
      destruct Hc as (? & ? & ? & [-> | (goroot & Hg & [-> | [Hp _]])]);
        [done..|].
      by rewrite Hg.
    + intros [[[[? ?] ?] Hg] Hp].
      destruct (res_getGOROOT (tasks env i)) as [goroot|] eqn:Hg'; [|done].
      exists (doRun i (recorded env i) tmpOutDir (make_script fl) []
                    (count fl =? 1)).
      rewrite (setup_call_elem _ _ _ _ _ i)
        by (simpl; by rewrite bool_decide_true).
      simpl. rewrite bool_decide_true by done. eauto 10.
Qed.

(** C7, counterexample. The setup flag is set and the instance is
    created, but the source root is not found: neither push nor run is
    called. *)
Lemma setup_without_push_and_run :
  let fl := asking 1 true "linux-amd64" in
  let env := answering
    [ {| rpc_CreateInstance := None; rpc_stream := [complete "id-1"];
         res_getGOROOT := inr "GOROOT not found";
         res_doPush := None; res_doRun := None |} ] None in
  let r := Create fl env None "/tmp/gomote1" [] in
  setup fl = true ∧ stdout r.2 = ["id-1"] ∧
  invoked (is_getGOROOT 0) r.2 = true ∧
  invoked (is_doPush 0) r.2 = false ∧
  invoked (is_doRun 0) r.2 = false.
Proof. vm_compute. done. Qed.

(** C8. Whenever run is called, the command passed is the Windows build
    script, "go/src/make.bat", exactly when the name of the builder type
    contains "windows", the Unix one, "go/src/make.bash", exactly when it
    does not, and the argument list is empty. *)
Theorem doRun_script (fl : flags) (env : environment)
    (group : option groupData) (tmpOutDir : string) (sched : list nat)
    (i : nat) (inst out cmd : string) (args : list string) (detailed : bool) :
  doRun i inst out cmd args detailed
    ∈ calls (Create fl env group tmpOutDir sched).2 →
  (cmd = "go/src/make.bat" ↔
     ∃ pre post, builderType fl = pre +:+ "windows" +:+ post) ∧
  (cmd = "go/src/make.bash" ↔
     ¬ ∃ pre post, builderType fl = pre +:+ "windows" +:+ post) ∧
  args = [].
Proof.
  intros Hc.
  rewrite (setup_call_elem _ _ _ _ _ i) in Hc
    by (simpl; by rewrite bool_decide_true).
  destruct Hc as (_ & _ & _ & Hform).
  destruct Hform as [? | (goroot & _ & [? | [_ [= _ _ -> -> _]]])]; [done..|].
  rewrite <-Contains_substring. unfold make_script.
  destruct (Contains (builderType fl) "windows"); split_and!; try done.
  all: split; [done|]. all: by intros [].
Qed.

Lemma doRun_script_witness :
  ("go/src/make.bat" = "go/src/make.bat" ↔
     ∃ pre post, "windows-amd64" = pre +:+ "windows" +:+ post) ∧
  ("go/src/make.bat" = "go/src/make.bash" ↔
     ¬ ∃ pre post, "windows-amd64" = pre +:+ "windows" +:+ post) ∧
  @nil string = [].
Proof.
  apply (doRun_script (asking 1 true "windows-amd64")
           (answering [comes_up "id-1"] None) None "/tmp/gomote1" []
           0 "id-1" "/tmp/gomote1" "go/src/make.bat" [] true).
  vm_compute. do 6 apply list_elem_of_further. apply list_elem_of_here.
Defined.
End create_claims.

(** ** [create] and the scenarios of the design *)

Section scenarios.
Import Gomote.

(** Without setup and without a new group, [create] is [Create] on the
    active group. *)
Lemma create_Create fl env activeGroup sched :
  setup fl = false → newGroup fl = "" →
  create fl env activeGroup sched =
  ((Create fl env activeGroup "" sched).1,
   Some (Create fl env activeGroup "" sched).2).
Proof.
  unfold create. intros -> ->. simpl.
  by destruct (Create fl env activeGroup "" sched).
Qed.

(** No task starts when the temporary directory or the new group cannot
    be created. *)
Lemma create_MkdirTemp_fails fl env activeGroup sched err :
  setup fl = true → res_MkdirTemp env = inr err →
  create fl env activeGroup sched =
  (Some ("failed to create a temporary directory for setup output: " +:+ err),
   None).
Proof. unfold create. by intros -> ->. Qed.

Lemma create_doCreateGroup_fails fl env activeGroup sched err :
  setup fl = false → newGroup fl ≠ "" →
  res_doCreateGroup env (newGroup fl) = inr err →
  create fl env activeGroup sched = (Some err, None).
Proof.
  unfold create. intros -> Hnew ->. by rewrite bool_decide_true.
Qed.

(** Three requests, no setup, no group, all streams complete: three
    different identifiers on the standard output, nil returned, whatever
    the interleaving. *)
Example three_instances :
  let env := answering [comes_up "id-1"; comes_up "id-2"; comes_up "id-3"] None in
  let r := Create (asking 3 false "linux-amd64") env None ""
             [2; 0; 1; 1; 2; 0; 0; 2; 2; 1; 1; 1; 0; 2; 2; 1; 0; 0; 2; 1]%nat in
  r.1 = None ∧ stdout r.2 = ["id-3"; "id-2"; "id-1"] ∧ Gomote.group r.2 = None.
Proof. vm_compute. done. Qed.

(** One request for a Windows builder, with setup: run gets the Windows
    build script. *)
Example windows_setup :
  let r := Create (asking 1 true "windows-amd64")
             (answering [comes_up "id-1"] None) None "/tmp/gomote1" [] in
  r.1 = None ∧
  calls_of (is_doRun 0) r.2
    = [doRun 0 "id-1" "/tmp/gomote1" "go/src/make.bat" [] true].
Proof. vm_compute. done. Qed.

(** With [--new-group] the group created gets the identifiers and is
    stored. *)
Example new_group :
  let fl := {| status := false; count := 2; setup := false;
               newGroup := "bench"; builderType := "linux-amd64" |} in
  let env := answering [comes_up "id-1"; comes_up "id-2"] None in
  create fl env None [1; 1; 1; 1; 1; 1; 1]%nat =
  (None,
   Some {| stdout := ["id-2"; "id-1"]; stderr := [];
           group := Some {| Name := "bench"; Instances := ["id-2"; "id-1"] |};
           eg_err := None;
           calls := [CreateInstance 1 "linux-amd64"; Recv 1; Recv 1; Recv 1;
                     CreateInstance 0 "linux-amd64"; Recv 0; Recv 0; Recv 0;
                     storeGroup {| Name := "bench";
                                   Instances := ["id-2"; "id-1"] |}];
           returned := [(1%nat, None); (0%nat, None)] |}).
Proof. vm_compute. reflexivity. Qed.
End scenarios.

(** * Further properties *)

(** ** The catalog, once more, and the usage text *)

Section catalog_more.
Import Catalog.

(** X1. The list [builders] returns holds, for each builder that passes the
    filter, one entry with its name and with the reverse flag and the
    expected number of its host, and nothing else; no name is listed
    twice. *)
Theorem builders_lists_usable (res : response) (r : resj)
    (order : gmap string builderInfo → list (string * builderInfo))
    (bt : list builderType) :
  (∀ m, order m ≡ₚ map_to_list m) →
  Body res = inr r →
  builders (inr res) order = Returned bt →
  (∀ x, x ∈ bt ↔
        ∃ b bi hi, kept r b bi hi ∧
          x = {| Name := b; IsReverse := hi_IsReverse hi;
                 ExpectNum := hi_ExpectNum hi |}) ∧
  NoDup (Name <$> bt).
Proof.
  intros Horder Hbody Hret.
  rewrite (builders_Returned _ _ _ _ Hbody Hret).
  split; [intros x; by apply builders_of_elem | by apply builders_of_NoDup].
Qed.

Lemma builders_lists_usable_witness :
  (∀ x, x ∈ sample_builders ↔
        ∃ b bi hi, kept sample_resj b bi hi ∧
          x = {| Name := b; IsReverse := hi_IsReverse hi;
                 ExpectNum := hi_ExpectNum hi |}) ∧
  NoDup (Name <$> sample_builders).
Proof.
  apply (builders_lists_usable sample_response sample_resj map_to_list).
  - done.
  - reflexivity.
  - vm_compute. reflexivity.
Defined.

(** X2. The list [builders] returns, or the way it fails, does not depend
    on the order in which the map of builders is visited. *)
Theorem builders_any_order (get : error + response)
    (order order' : gmap string builderInfo → list (string * builderInfo)) :
  (∀ m, order m ≡ₚ map_to_list m) →
  (∀ m, order' m ≡ₚ map_to_list m) →
  builders get order = builders get order'.
Proof.
  intros Horder Horder'. unfold builders.
  destruct get as [err|res]; [done|].
  destruct (negb _); [done|].
  destruct (Body res) as [err|r]; [done|].
  f_equal. by apply builders_of_order.
Qed.

Lemma builders_any_order_witness :
  builders (inr sample_response) map_to_list
  = builders (inr sample_response) (λ m, reverse (map_to_list m)).
Proof.
  apply (builders_any_order (inr sample_response) map_to_list
           (λ m, reverse (map_to_list m))).
  - done.
  - intros m. apply reverse_Permutation.
Defined.
End catalog_more.

Section legacy.
Import Catalog Legacy.

Lemma type_line_host (b : string) (hi : hostInfo) :
  type_line {| Name := b; IsReverse := hi_IsReverse hi;
               ExpectNum := hi_ExpectNum hi |}
  = "  * " +:+ b +:+ host_note hi.
Proof. reflexivity. Qed.

(** X3. When the catalog is fetched, the usage text lists under
    "Valid types:" the builders that pass the filter, each on a line with
    its name, in ascending order of the names, and notes a limited
    capacity exactly for those whose host is reverse, with the number of
    machines when the host expects a positive number. *)
Theorem Usage_valid_types (res : response) (r : resj)
    (order : gmap string builderInfo → list (string * builderInfo))
    (log_prefix : string) (defaults : list string) :
  (∀ m, order m ≡ₚ map_to_list m) →
  StatusCode res = 200 →
  Body res = inr r →
  ∃ bt,
    Usage log_prefix defaults (builders (inr res) order)
      = ["create usage: gomote create [create-opts] <type>"] ++ defaults ++
        [""; "Valid types:"] ++ (type_line <$> bt) ∧
    StronglySorted name_lt bt ∧
    ∀ line, line ∈ type_line <$> bt ↔
            ∃ b bi hi, kept r b bi hi ∧ line = "  * " +:+ b +:+ host_note hi.
Proof.
  intros Horder Hcode Hbody.
  exists (builders_of r (order (Builders r))).
  assert (builders (inr res) order
          = Returned (builders_of r (order (Builders r)))) as ->.
  { unfold builders. by rewrite Hcode, Hbody. }
  split; [done|]. split; [by apply builders_of_sorted|].
  intros line. rewrite list_elem_of_fmap. split.
  - intros (x & -> & Hx). apply builders_of_elem in Hx; [|done].
    destruct Hx as (b & bi & hi & Hk & ->). exists b, bi, hi.
    by rewrite type_line_host.
  - intros (b & bi & hi & Hk & ->). eexists. rewrite <-type_line_host.
    split; [done|]. apply builders_of_elem; [done|]. by exists b, bi, hi.
Qed.

Lemma Usage_valid_types_witness :
  ∃ bt,
    Usage "2024/01/02 15:04:05 " ["  -status"]
          (builders (inr sample_response) map_to_list)
      = ["create usage: gomote create [create-opts] <type>"] ++ ["  -status"] ++
        [""; "Valid types:"] ++ (type_line <$> bt) ∧
    StronglySorted name_lt bt ∧
    ∀ line, line ∈ type_line <$> bt ↔
            ∃ b bi hi, kept sample_resj b bi hi
                       ∧ line = "  * " +:+ b +:+ host_note hi.
Proof.
  apply (Usage_valid_types sample_response sample_resj map_to_list
           "2024/01/02 15:04:05 " ["  -status"]).
  - done.
  - reflexivity.
  - reflexivity.
Defined.

Example Usage_sample :
  Usage "2024/01/02 15:04:05 " [] (builders (inr sample_response) map_to_list)
  = ["create usage: gomote create [create-opts] <type>"; ""; "Valid types:";
     "  * darwin-arm64   [limited capacity: 3 machines]";
     "  * linux-amd64"].
Proof. vm_compute. reflexivity. Qed.




Example legacyCreate_progress :
  stderr (legacyCreate false (Parsed true ["linux-amd64"]) "" [] (Fatal "")
            {| res_NewCoordinatorClient := None;
               wait_statuses := [ {| Message := ""; Ahead := 2 |};
                                  {| Message := "booting"; Ahead := 0 |} ];
               res_CreateBuildlet := inr "timeout" |})
  = [StillCreating "linux-amd64" 2; Text "# booting"].
Proof. reflexivity. Qed.

(** A flag that is not defined: the complaint of [fs.Parse], the usage
    text and, the catalog being out of reach, the line of [log.Fatal]. *)
Example legacyCreate_unknown_flag :
  legacyCreate false
    (CalledUsage (Some "flag provided but not defined: -timeout"))
    "2024/01/02 15:04:05 " ["  -status"]
    (builders (inl "dial tcp: no route to host") map_to_list)
    {| res_NewCoordinatorClient := None; wait_statuses := [];
       res_CreateBuildlet := inl "user-linux-amd64-0" |}
  = {| stdout := [];
       stderr := Text <$>
         ["flag provided but not defined: -timeout";
          "create usage: gomote create [create-opts] <type>";
          "  -status"; ""; "Valid types:";
          "2024/01/02 15:04:05 dial tcp: no route to host"];
       ends := Exit 1; contacted := false |}.
Proof. reflexivity. Qed.
End legacy.

(** ** More on the runs of [create] *)

Section observe.
Import Gomote Observe.

(** X5. Whatever the interleaving, the calls of a task are found among the
    calls made in the order of its code: the call to CreateInstance, the
    reads of the stream up to its end or its first error, then, if the
    instance is created and setup is asked for, the resolution of the
    source root, push and run, each only after the one before returned
    without error. *)
Theorem task_calls_in_order (fl : flags) (env : environment)
    (group : option groupData) (tmpOutDir : string) (sched : list nat)
    (i : nat) :
  filter (λ c, call_task c = Some i)
         (calls (Create fl env group tmpOutDir sched).2)
  = if bool_decide (i ∈ indices fl) then task_calls fl env tmpOutDir i else [].
Proof.
  rewrite Create_calls_of_task, list_lookup_fmap. unfold indices.
  destruct (decide (i ∈ seq 0 (Z.to_nat (count fl)))) as [Hi|Hi];
    [rewrite (bool_decide_true _ Hi) | rewrite (bool_decide_false _ Hi)].
  - apply list_elem_of_lookup in Hi as [k Hk].
    pose proof Hk as Hk'. apply lookup_seq in Hk' as [-> Hlt].
    change (0 + k)%nat with k in *. rewrite Hk. simpl.
    apply eg_Go_own_calls.
  - destruct (seq 0 (Z.to_nat (count fl)) !! i) as [k|] eqn:Hk; [|done].
    exfalso. apply Hi. pose proof Hk as Hk'.
    apply lookup_seq in Hk' as [-> _]. by eapply list_elem_of_lookup_2.
Qed.

Lemma bind_if_cons {A B} (p : A → bool) (f : A → B) (g : A → list B)
    (l : list A) :
  l ≫= (λ i, if p i then f i :: g i else [])
  ≡ₚ (f <$> filter (λ i, p i = true) l) ++ (filter (λ i, p i = true) l ≫= g).
Proof.
  induction l as [|x l IH]; [done|].
  rewrite bind_cons, filter_cons, IH.
  destruct (p x); [rewrite decide_True by done|by rewrite decide_False].
  rewrite fmap_cons, bind_cons. cbn [app]. constructor.
  rewrite !(assoc (++)). apply Permutation_app_tail, Permutation_app_comm.
Qed.

Lemma bind_nothing {A B} (f : A → list B) (l : list A) :
  (∀ x, f x = []) → l ≫= f = [].
Proof.
  intros Hf. induction l as [|x l IH]; [done|]. by rewrite bind_cons, Hf, IH.
Qed.

Lemma setup_written_off fl env tmpOutDir i :
  setup fl = false → setup_written fl env tmpOutDir i = [].
Proof. unfold setup_written, setup_calls. by intros ->. Qed.

(** X6. The standard output holds, up to the order, the identifier of each
    instance created, printed by its task, and the lines that the setup
    steps of these tasks wrote there, and nothing else, whatever [Create]
    returns. So without setup it has one line for each instance created,
    at most [count] lines. With a group, what the group gains is what the
    tasks printed, up to the order. *)
Theorem stdout_one_line_per_instance (fl : flags) (env : environment)
    (group : option groupData) (tmpOutDir : string) (sched : list nat) :
  let r := Create fl env group tmpOutDir sched in
  let created := filter (λ i, creation_ok env i = true) (indices fl) in
  stdout r.2
    ≡ₚ (recorded env <$> created) ++
       (created ≫= λ i, omap to_stdout (setup_written fl env tmpOutDir i)) ∧
  (setup fl = false →
   stdout r.2 ≡ₚ recorded env <$> created ∧
   (length (stdout r.2) ≤ Z.to_nat (count fl))%nat) ∧
  ∃ new,
    new ≡ₚ recorded env <$> created ∧
    Gomote.group r.2 =
      (λ g, {| Name := Name g; Instances := Instances g ++ new |}) <$> group.
Proof.
  cbv zeta.
  destruct (Create_spec fl env group tmpOutDir sched)
    as (new & _ & Hout & Hg & Hnew & _).
  assert (stdout (Create fl env group tmpOutDir sched).2
    ≡ₚ (recorded env <$> filter (λ i, creation_ok env i = true) (indices fl))
       ++ (filter (λ i, creation_ok env i = true) (indices fl)
             ≫= λ i, omap to_stdout (setup_written fl env tmpOutDir i)))
    as Hall.
  { rewrite Hout. unfold task_stdout. apply bind_if_cons. }
  split; [done|]. split.
  - intros Hoff.
    assert (stdout (Create fl env group tmpOutDir sched).2
      ≡ₚ recorded env <$> filter (λ i, creation_ok env i = true) (indices fl))
      as Hids.
    { rewrite Hall, bind_nothing, app_nil_r; [done|].
      intros i. by rewrite setup_written_off. }
    split; [done|]. rewrite Hids, length_fmap.
    etrans; [apply length_filter|]. unfold indices. by rewrite length_seq.
  - by exists new.
Qed.

Lemma stdout_one_line_per_instance_witness :
  stdout (Create (asking 2 false "linux-amd64")
                 (answering [comes_up "id-1"; comes_up "id-2"] None)
                 None "" [1; 0; 0]%nat).2
  ≡ₚ ["id-1"; "id-2"].
Proof.
  destruct (stdout_one_line_per_instance (asking 2 false "linux-amd64")
              (answering [comes_up "id-1"; comes_up "id-2"] None)
              None "" [1; 0; 0]%nat) as (_ & Hoff & _).
  destruct (Hoff eq_refl) as [Hids _]. exact Hids.
Defined.

Lemma updateLoop_said fl env i stream inst l :
  l ∈ omap said (updateLoop fl env i stream inst).1 →
  status fl = true ∧
  ∃ ahead, l = StillCreating (builderType fl) (Z.of_nat i + 1) ahead.
Proof.
  revert inst. induction stream as [|[u|e] stream IH]; intros inst.
  - rewrite updateLoop_nil. intros H. by inv H.
  - rewrite updateLoop_update. cbn [fst]. rewrite omap_cons. cbn [said option_list option_rect app].
    rewrite omap_app, elem_of_app. intros [Hl|Hl]; [|by eapply IH].
    destruct (bool_decide _ && status fl) eqn:Hcond; [|by inv Hl].
    apply andb_true_iff in Hcond as [_ ->].
    apply list_elem_of_singleton in Hl as ->. eauto.
  - rewrite updateLoop_error. intros H. by inv H.
Qed.

Lemma omap_said_Write (os : list written) :
  omap said (Write <$> os) = omap to_stderr os.
Proof.
  induction os as [|o os IH]; [done|].
  by rewrite fmap_cons, !omap_cons, IH.
Qed.

Lemma elem_of_to_stderr l (os : list written) :
  l ∈ omap to_stderr os ↔ ∃ s, l = Written s ∧ ToStderr s ∈ os.
Proof.
  rewrite list_elem_of_omap. split.
  - intros ([s|s] & Hs & Hl); [done|]. injection Hl as <-. by exists s.
  - intros (s & -> & Hs). by exists (ToStderr s).
Qed.

Lemma setup_instance_said fl env tmpOutDir i te inst l :
  l ∈ omap said (setup_instance fl env tmpOutDir i te inst).1 →
  setup fl = true ∧
  ((count fl ≠ 1 ∧
    ((∃ goroot, l = PushingGOROOT goroot inst) ∨ ∃ cmd, l = Running cmd inst))
   ∨ ∃ s c, l = Written s ∧ ToStderr s ∈ progress env c ∧
            c ∈ omap called (setup_instance fl env tmpOutDir i te inst).1).
Proof.
  rewrite setup_instance_called.
  unfold setup_instance, invoke, make_script.
  destruct (setup fl); [|intros H; by inv H]. cbn [negb].
  destruct (Z.eqb_spec (count fl) 1) as [Hc|Hc];
    destruct (res_getGOROOT te) as [goroot|], (res_doPush te);
    cbn; omap_calls; rewrite ?omap_said_Write;
    repeat first [rewrite elem_of_app | rewrite elem_of_cons
                 | rewrite elem_of_to_stderr];
    intros H; (split; [done|]).
  all: repeat match type of H with
       | _ ∨ _ => destruct H as [H|H]
       | ∃ _, _ => destruct H as (s & -> & H)
       | _ ∈ [] => by inv H
       | _ = _ => subst l
       end.
  all: try (right; eexists _, _; split; [done|]; split; [done|]; set_solver).
  all: left; split; [done|]; eauto.
Qed.

Lemma eg_Go_said fl env group_set tmpOutDir i l :
  l ∈ omap said (eg_Go fl env group_set tmpOutDir i) →
  (status fl = true ∧
   ∃ ahead, l = StillCreating (builderType fl) (Z.of_nat i + 1) ahead) ∨
  (setup fl = true ∧
   ((count fl ≠ 1 ∧
     ((∃ goroot inst, l = PushingGOROOT goroot inst)
      ∨ ∃ cmd inst, l = Running cmd inst))
    ∨ ∃ s, l = Written s ∧ creation_ok env i = true ∧
           ToStderr s ∈ setup_written fl env tmpOutDir i)).
Proof.
  pose proof (updateLoop_said fl env i (rpc_stream (tasks env i)) "" l) as Hul.
  unfold eg_Go. destruct (creation_ok env i) eqn:Hc.
  - rewrite (task_created fl env group_set tmpOutDir i Hc).
    pose proof (setup_instance_said fl env tmpOutDir i (tasks env i)
                  (recorded env i) l) as Hsu.
    rewrite setup_instance_called in Hsu.
    destruct group_set; omap_calls; rewrite elem_of_app;
      (intros [Hl|Hl]; [left; by apply Hul|right]).
    all: destruct (Hsu Hl)
      as (? & [(? & [[g ->]|[c ->]]) | (s & c & -> & Hs & Hcall)]).
    all: split; [done|].
    all: try (left; split; [done|]; eauto 10; fail).
    all: right; exists s; split_and!; try done.
    all: unfold setup_written, setup_calls; apply list_elem_of_bind.
    all: by exists c.
  - unfold task. unfold creation_ok in Hc.
    destruct (rpc_CreateInstance (tasks env i)) as [err|] eqn:Hrpc;
      [intros H; by inv H|].
    simpl in Hc.
    destruct (stream_cases (rpc_stream (tasks env i)))
      as [Hs|(us & err & rest & Hs & Hus)]; [congruence|].
    destruct (updateLoop_first_error fl env i us err rest "" Hus) as (Hr & _).
    rewrite <-Hs in Hr. simpl.
    destruct (updateLoop fl env i _ "") as [acts r].
    simpl in Hr. subst r. simpl.
    change (list_omap action stderr_line said) with (omap (M := list) said).
    omap_calls. cbn [fst] in Hul. intros H. left. by apply Hul.
Qed.

(** X7. Of the lines on the standard error, a progress line is there only
    when status reporting is on, a notice of push or run only when setup
    is asked for several instances, and any other line is one that a setup
    step wrote, for a task that created its instance. So with
    [-status=false] and no setup nothing is written to the standard error;
    with [-status=false] and a single instance, all that is written there
    comes from the setup steps. *)
Theorem stderr_lines (fl : flags) (env : environment)
    (group : option groupData) (tmpOutDir : string) (sched : list nat) :
  let r := Create fl env group tmpOutDir sched in
  (∀ l, l ∈ stderr r.2 →
     match l with
     | StillCreating builderType n _ =>
       status fl = true ∧ builderType = Gomote.builderType fl ∧
       1 ≤ n ≤ count fl
     | PushingGOROOT _ _ | Running _ _ => setup fl = true ∧ count fl ≠ 1
     | Written s =>
       setup fl = true ∧
       ∃ i, i ∈ indices fl ∧ creation_ok env i = true ∧
            ToStderr s ∈ setup_written fl env tmpOutDir i
     end) ∧
  (status fl = false → setup fl = false → stderr r.2 = []) ∧
  (status fl = false → count fl = 1 →
   ∀ l, l ∈ stderr r.2 → ∃ s, l = Written s).
Proof.
  cbv zeta.
  destruct (Create_interleaving fl env group tmpOutDir sched)
    as (m & tail & Hm & _ & -> & _).
  apply interleaving_Permutation in Hm.
  assert (∀ l, l ∈ omap said m →
    ∃ i, i ∈ indices fl ∧
         l ∈ omap said (eg_Go fl env (bool_decide (group ≠ None)) tmpOutDir i))
    as Hfrom.
  { intros l. rewrite Hm, omap_concat_fmap, list_elem_of_bind.
    intros (i & ? & ?). by exists i. }
  assert (∀ l, l ∈ omap said m →
     match l with
     | StillCreating builderType n _ =>
       status fl = true ∧ builderType = Gomote.builderType fl ∧
       1 ≤ n ≤ count fl
     | PushingGOROOT _ _ | Running _ _ => setup fl = true ∧ count fl ≠ 1
     | Written s =>
       setup fl = true ∧
       ∃ i, i ∈ indices fl ∧ creation_ok env i = true ∧
            ToStderr s ∈ setup_written fl env tmpOutDir i
     end) as Hlines.
  { intros l (i & Hi & Hl)%Hfrom.
    apply eg_Go_said in Hl
      as [[? [ahead ->]]
         | (? & [(? & [(? & ? & ->) | (? & ? & ->)]) | (s & -> & ? & ?)])];
      try done.
    - split; [done|]. split; [done|].
      unfold indices in Hi. apply list_elem_of_lookup in Hi as [k Hk].
      apply lookup_seq in Hk as [-> Hk]. lia.
    - split; [done|]. by exists i. }
  split; [done|]. split.
  - intros Hstatus Hsetup.
    destruct (omap said m) as [|l ls] eqn:Hsaid; [done|].
    specialize (Hlines l (list_elem_of_here _ _)).
    destruct l as [? ? ?|? ?|? ?|?];
      destruct Hlines as [? _]; congruence.
  - intros Hstatus Hcount l Hl. specialize (Hlines l Hl).
    destruct l as [? ? ?|? ?|? ?|s];
      [destruct Hlines as [? _]; congruence
      |destruct Hlines as [_ ?]; congruence..
      |by exists s].
Qed.

(** One instance with setup, status reporting off: the standard output
    has more than the identifier, and the standard error is not empty,
    when the setup steps report. *)
Example setup_reports :
  let r := Create {| status := false; count := 1; setup := true;
                     newGroup := ""; builderType := "linux-amd64" |}
                  (reporting [comes_up "id-1"] None) None "/tmp/gomote1" [] in
  r.1 = None ∧
  stdout r.2 = ["id-1"; "Building Go cmd/dist."; "Installed Go."] ∧
  stderr r.2 = [Written "# pushing to id-1"].
Proof. vm_compute. done. Qed.

Lemma stderr_lines_witness :
  stderr (Create {| status := false; count := 2; setup := false;
                    newGroup := ""; builderType := "linux-amd64" |}
                 (answering [comes_up "id-1"; comes_up "id-2"] None) None ""
                 [1; 0; 0]%nat).2
  = [].
Proof.
  apply (stderr_lines {| status := false; count := 2; setup := false;
                         newGroup := ""; builderType := "linux-amd64" |}
           (answering [comes_up "id-1"; comes_up "id-2"] None) None ""
           [1; 0; 0]%nat).
  - reflexivity.
  - reflexivity.
Defined.

Lemma run_no_tasks sched w : run sched [] w = ([], w).
Proof. induction sched as [|i sched IH]; [done|]. simpl. apply IH. Qed.

(** X8. With a count of zero or less no task is started: nothing is
    requested or printed; a group that is not nil is stored as it is all
    the same, and what [storeGroup] returns is returned. *)
Theorem Create_without_tasks (fl : flags) (env : environment)
    (group : option groupData) (tmpOutDir : string) (sched : list nat) :
  count fl ≤ 0 →
  Create fl env group tmpOutDir sched =
  match group with
  | Some g => (res_storeGroup env g, call_storeGroup g (init group))
  | None => (None, init None)
  end.
Proof.
  intros Hcount. unfold Create, indices.
  replace (Z.to_nat (count fl)) with 0%nat by lia.
  simpl. rewrite run_no_tasks. unfold eg_Wait. simpl. by destruct group.
Qed.

Lemma Create_without_tasks_witness :
  Create (asking 0 true "linux-amd64") second_fails (Some empty_group)
         "/tmp/gomote1" [0%nat; 1%nat]
  = (None,
     {| stdout := []; stderr := []; group := Some empty_group;
        eg_err := None; calls := [storeGroup empty_group]; returned := [] |}).
Proof.
  apply (Create_without_tasks (asking 0 true "linux-amd64") second_fails
           (Some empty_group) "/tmp/gomote1" [0%nat; 1%nat]).
  vm_compute. discriminate.
Defined.

(** X9. When a task fails, the error [Create] returns is the error of one
    of the tasks that failed, whatever the interleaving; so, when the
    tasks that fail all fail with one error (when a single task fails, for
    one), that error is returned. *)
Theorem Create_returns_a_task_error (fl : flags) (env : environment)
    (group : option groupData) (tmpOutDir : string) (sched : list nat) :
  all_nil fl env group tmpOutDir = false →
  let r := Create fl env group tmpOutDir sched in
  let result := task_result fl env (bool_decide (group ≠ None)) tmpOutDir in
  (∃ i, i ∈ indices fl ∧ is_Some r.1 ∧ r.1 = result i) ∧
  (∀ err, (∀ j, j ∈ indices fl → result j = None ∨ result j = Some err) →
          r.1 = Some err).
Proof.
  rewrite all_nil_pipeline_ok. intros Hfail. cbv zeta.
  pose proof (no_error_returned fl env group tmpOutDir sched) as Hok.
  destruct (Create_spec fl env group tmpOutDir sched)
    as (_ & _ & _ & _ & _ & _ & _ & _ & ->).
  destruct (first_error _) as [err|] eqn:Herr.
  2:{ rewrite (proj1 Hok) in Hfail; done. }
  apply first_error_Some in Herr as (before & i & after & Hret & _).
  assert ((i, Some err) ∈ returned (Create fl env group tmpOutDir sched).2)
    as [Hi Hres]%returned_elem.
  { rewrite Hret. apply elem_of_app. right. by left. }
  split; [exists i; eauto|].
  intros err' Hall. destruct (Hall i Hi); congruence.
Qed.

Lemma Create_returns_a_task_error_witness :
  (Create (asking 2 false "linux-amd64") second_fails (Some empty_group) ""
          [1; 0; 1; 0; 0; 1]%nat).1
  = Some "failed to create buildlet (2): unavailable".
Proof.
  apply (Create_returns_a_task_error (asking 2 false "linux-amd64")
           second_fails (Some empty_group) "" [1; 0; 1; 0; 0; 1]%nat).
  - reflexivity.
  - intros j Hj. unfold indices in Hj. simpl in Hj.
    apply elem_of_cons in Hj as [->|Hj]; [left; reflexivity|].
    apply list_elem_of_singleton in Hj as ->. right. reflexivity.
Defined.
End observe.

(** ** Strings and byte slices *)

Lemma app_cons (c : ascii) (s t : string) :
  String c s +:+ t = String c (s +:+ t).
Proof. reflexivity. Qed.

Lemma app_nil_r_s (s : string) : s +:+ "" = s.
Proof. induction s as [|c s IH]; [done|]. by rewrite app_cons, IH. Qed.

Lemma app_assoc_s (s t u : string) : (s +:+ t) +:+ u = s +:+ t +:+ u.
Proof. induction s as [|c s IH]; [done|]. by rewrite !app_cons, IH. Qed.

Lemma length_app_s (s t : string) :
  String.length (s +:+ t) = (String.length s + String.length t)%nat.
Proof. induction s as [|c s IH]; [done|]. rewrite app_cons. simpl. by rewrite IH. Qed.

Lemma slice_from_app (s t : string) : slice_from (s +:+ t) (String.length s) = t.
Proof. induction s as [|c s IH]; [by destruct t|]. by rewrite app_cons. Qed.

Lemma slice_from_0 (s : string) : slice_from s 0 = s.
Proof. by destruct s. Qed.

(** Trimming a prefix undoes putting it in front. *)
Lemma TrimPrefix_app (p s : string) : TrimPrefix (p +:+ s) p = s.
Proof.
  unfold TrimPrefix. rewrite (proj2 (HasPrefix_app (p +:+ s) p)) by eauto.
  apply slice_from_app.
Qed.

Lemma prefix_cons (c d : ascii) (s t : string) :
  String.prefix (String c s) (String d t) = bool_decide (c = d) && String.prefix s t.
Proof.
  simpl. destruct (ascii_dec c d) as [->|Hne].
  - by rewrite bool_decide_true.
  - by rewrite bool_decide_false.
Qed.

Lemma Contains_cons (c : ascii) (s sub : string) :
  Contains (String c s) sub = String.prefix sub (String c s) || Contains s sub.
Proof. reflexivity. Qed.

Lemma Index_cons (c : ascii) (s sep : string) :
  Index (String c s) sep =
  if String.prefix sep (String c s) then 0
  else if Index s sep =? -1 then -1 else Index s sep + 1.
Proof. reflexivity. Qed.

Lemma Index_nil (sep : string) :
  Index "" sep = if String.prefix sep "" then 0 else -1.
Proof. reflexivity. Qed.

Lemma Index_range (s sep : string) :
  -1 ≤ Index s sep ≤ Z.of_nat (String.length s).
Proof.
  induction s as [|c s IH].
  - rewrite Index_nil. destruct (String.prefix sep ""); simpl; lia.
  - rewrite Index_cons. destruct (String.prefix sep (String c s)).
    + simpl. lia.
    + destruct (Z.eqb_spec (Index s sep) (-1)); simpl String.length; lia.
Qed.

(** [Index] gives -1 exactly when [Contains] is false. *)
Lemma Index_Contains (s sep : string) :
  Index s sep = -1 ↔ Contains s sep = false.
Proof.
  induction s as [|c s IH].
  - rewrite Index_nil. unfold Contains.
    destruct (String.prefix sep ""); simpl; split; done.
  - rewrite Index_cons, Contains_cons.
    destruct (String.prefix sep (String c s)); simpl; [split; done|].
    pose proof (Index_range s sep).
    destruct (Z.eqb_spec (Index s sep) (-1)) as [Hi|Hi].
    + split; [intros _; by apply IH|done].
    + split; [lia|]. intros Hc. apply IH in Hc. done.
Qed.

(** When [sep] occurs, [Index] is the offset of its first occurrence and
    the slice from there starts with [sep]. *)
Lemma Index_first (s sep : string) :
  Index s sep ≠ -1 →
  ∃ a b,
    s = a +:+ sep +:+ b ∧
    Index s sep = Z.of_nat (String.length a) ∧
    slice_from s (Z.to_nat (Index s sep)) = sep +:+ b ∧
    ∀ a' b', s = a' +:+ sep +:+ b' → (String.length a ≤ String.length a')%nat.
Proof.
  induction s as [|c s IH].
  - rewrite Index_nil. destruct (String.prefix sep "") eqn:Hp; [|done].
    intros _. apply prefix_app in Hp as [b Hb].
    exists "", b. split; [done|]. split; [done|]. split; [done|].
    intros; simpl; lia.
  - rewrite Index_cons. destruct (String.prefix sep (String c s)) eqn:Hp.
    + intros _. apply prefix_app in Hp as [b Hb].
      exists "", b. split; [done|]. split; [done|]. split; [done|].
      intros; simpl; lia.
    + destruct (Z.eqb_spec (Index s sep) (-1)) as [Hi|Hi]; [done|].
      intros _. destruct (IH Hi) as (a & b & Hs & Hlen & Hslice & Hmin).
      pose proof (Index_range s sep).
      exists (String c a), b. split; [by rewrite app_cons, <-Hs|].
      split; [simpl String.length; lia|]. split.
      * replace (Z.to_nat (Index s sep + 1)) with (S (Z.to_nat (Index s sep)))
          by lia.
        done.
      * intros [|d a'] b' Heq.
        { exfalso. assert (String.prefix sep (String c s) = true); [|congruence].
          apply prefix_app. by exists b'. }
        rewrite app_cons in Heq. injection Heq as -> Heq.
        specialize (Hmin a' b' Heq). simpl. lia.
Qed.

(** A string that begins with [t] where [p ++ s] does, without [p]
    beginning with [t], runs over the end of [p]. *)
Lemma prefix_app_split (t p s : string) :
  String.prefix t (p +:+ s) = true →
  String.prefix t p = true ∨
  ∃ u, u ≠ "" ∧ t = p +:+ u ∧ String.prefix u s = true.
Proof.
  revert t. induction p as [|c p IH]; intros t Ht.
  - destruct t as [|d t]; [by left|]. right. by exists (String d t).
  - destruct t as [|d t]; [by left|].
    rewrite app_cons, prefix_cons in Ht.
    apply andb_true_iff in Ht as [Hcd Ht].
    apply bool_decide_eq_true in Hcd as ->.
    destruct (IH t Ht) as [Hp | (u & Hu & -> & Hus)].
    + left. by rewrite prefix_cons, bool_decide_true.
    + right. by exists u.
Qed.

Lemma has_byte_app (c : ascii) (s t : string) :
  has_byte c (s +:+ t) = has_byte c s || has_byte c t.
Proof.
  induction s as [|d s IH]; [done|].
  rewrite app_cons. simpl. by rewrite IH, orb_assoc.
Qed.

(** The first occurrence of [sep] in [pre ++ s] is at the start of [s],
    when [s] begins with [sep], [sep] does not occur in [pre], and the
    first byte of [sep] occurs nowhere else in it. *)
Lemma Index_app_fresh (pre s : string) (c : ascii) (sep' : string) :
  Contains pre (String c sep') = false →
  has_byte c sep' = false →
  String.prefix (String c sep') s = true →
  Index (pre +:+ s) (String c sep') = Z.of_nat (String.length pre).
Proof.
  intros Hpre Hc Hs. induction pre as [|d pre IH].
  - destruct s as [|e s]; [done|].
    change ("" +:+ String e s) with (String e s).
    by rewrite Index_cons, Hs.
  - rewrite Contains_cons in Hpre. apply orb_false_iff in Hpre as [Hp Hpre].
    rewrite app_cons, Index_cons.
    destruct (String.prefix (String c sep') (String d (pre +:+ s))) eqn:Hover.
    { exfalso. rewrite <-app_cons in Hover.
      apply prefix_app_split in Hover as [? | (u & Hu & Heq & Hus)];
        [congruence|].
      rewrite app_cons in Heq. injection Heq as -> ->.
      destruct s as [|e s]; [done|].
      rewrite prefix_cons in Hs. apply andb_true_iff in Hs as [He _].
      apply bool_decide_eq_true in He as <-.
      destruct u as [|e u]; [done|].
      rewrite prefix_cons in Hus. apply andb_true_iff in Hus as [He _].
      apply bool_decide_eq_true in He as <-.
      rewrite has_byte_app in Hc. simpl in Hc.
      rewrite bool_decide_true, orb_true_r in Hc by done. done. }
    rewrite (IH Hpre).
    destruct (Z.eqb_spec (Z.of_nat (String.length pre)) (-1)); [lia|].
    simpl String.length. lia.
Qed.

(** ** The README generator *)

Section readmes.
Import Readmes.

Lemma Sprintf_readme_footer h p1 p2 p3 doc footer :
  Sprintf_readme h p1 p2 p3 doc footer
  = Sprintf_readme h p1 p2 p3 doc "" +:+ footer.
Proof.
  unfold Sprintf_readme. by rewrite !app_assoc_s.
Qed.

Lemma Sprintf_readme_header p1 p2 p3 doc footer :
  Contains (Sprintf_readme header p1 p2 p3 doc footer) header = true.
Proof.
  apply Contains_substring. unfold Sprintf_readme. by eexists "<!-- ", _.
Qed.

Lemma Sprintf_readme_not_nil h p1 p2 p3 doc footer :
  Sprintf_readme h p1 p2 p3 doc footer ≠ "".
Proof. done. Qed.


(** A call leaves the files as they are and logs nothing, or it writes the
    README of the package of the directory: all of the new contents, and
    then it logs the write and returns nil, or their beginning when the
    write fails, and then it returns the error. *)
Lemma walkFn_cases sys root_Dir path IsDir err files :
  let o := walkFn sys root_Dir path IsDir err files in
  o = leave (returns o) files ∨
  ∃ pkg,
    let readme := Join sys (Dir pkg) "README.md" in
    let exist := default "" (files !! readme) in
    let new := Sprintf_readme header (pkgName_of sys root_Dir path)
                 (pkgName_of sys root_Dir path) (pkgName_of sys root_Dir path)
                 (Doc pkg) (kept_footer exist) in
    err = None ∧ IsDir = true ∧
    (let rest := TrimPrefix (TrimPrefix path root_Dir) "/" in
     (rest =? "env")%string || (rest =? "version")%string
     || (rest =? "vendor")%string = false) ∧
    Import sys path (pkgName_of sys root_Dir path) = inl pkg ∧
    Doc pkg ≠ "" ∧
    is_Some (Stat sys (Join sys (Dir pkg) "README")) ∧
    read_fault sys readme = None ∧
    (exist = "" ∨ Contains exist header = true) ∧
    exist ≠ new ∧
    (o = {| returns := None; files_after := <[readme := new]> files;
            logged := ["Wrote " +:+ readme] |} ∨
     ∃ n e, o = leave (Some (Failed e)) (<[readme := slice_to new n]> files)).
Proof.
  cbv zeta. unfold walkFn. fold (pkgName_of sys root_Dir path).
  destruct err as [err|]; [by left|].
  destruct IsDir; [|by left]. cbn [negb].
  destruct (_ || _ || _) eqn:Hskip; [by left|].
  destruct (Import sys path _) as [pkg|] eqn:Himp; [|by left].
  destruct (String.eqb_spec (Doc pkg) "") as [|Hdoc]; [by left|].
  destruct (Stat sys _) as [e|] eqn:Hstat; [|by left].
  set (readme := Join sys (Dir pkg) "README.md") in *.
  assert (∃ exist err,
    ReadFile sys files readme = (exist, err) ∧
    match err with
    | Some (ReadFault _) => True
    | _ => read_fault sys readme = None ∧ exist = default "" (files !! readme)
    end) as (exist & rerr & -> & Hread).
  { unfold ReadFile. destruct (read_fault sys readme); [by eexists _, _|].
    destruct (files !! readme); by eexists _, _. }
  destruct rerr as [[|e']|]; [|by left|]; destruct Hread as [Hfault Hexist].
  all: destruct (_ && _) eqn:Hforeign; [by left|].
  all: assert ((if negb (Index exist end_marker =? -1)
                then slice_from exist (Z.to_nat (Index exist end_marker))
                else "") = kept_footer exist) as ->
         by (unfold kept_footer; by destruct (_ =? _)).
  all: destruct (String.eqb_spec exist
         (Sprintf_readme header (pkgName_of sys root_Dir path)
            (pkgName_of sys root_Dir path) (pkgName_of sys root_Dir path)
            (Doc pkg) (kept_footer exist))) as [|Hnew]; [by left|].
  all: unfold WriteFile.
  all: destruct (write_fault sys readme) as [[e'|n e']|] eqn:Hwrite;
         [by left| |].
  all: subst readme; right; exists pkg; cbv zeta; rewrite <-Hexist.
  all: split_and!; try done; try (left; done); try (right; by exists n, e').
  all: apply andb_false_iff in Hforeign as [Hlen|Hh];
         [left|right; by apply negb_false_iff].
  all: destruct exist; [done|]; simpl in Hlen; apply Z.ltb_ge in Hlen; lia.
Qed.

Lemma app_inj_length (a a' x x' : string) :
  a +:+ x = a' +:+ x' → String.length a = String.length a' →
  a = a' ∧ x = x'.
Proof.
  revert a'. induction a as [|c a IH]; intros [|c' a'] Heq Hlen;
    try done.
  rewrite !app_cons in Heq. injection Heq as -> Heq.
  injection Hlen as Hlen. destruct (IH a' Heq Hlen) as [-> ->]. done.
Qed.

(** The footer kept of a file written by the function is the footer it
    was written with, when the end marker is not in the generated
    section. *)
Lemma kept_footer_stable (sec exist : string) :
  Contains sec end_marker = false →
  kept_footer (sec +:+ kept_footer exist) = kept_footer exist.
Proof.
  intros Hsec. unfold kept_footer at 2 3.
  destruct (Z.eqb_spec (Index exist end_marker) (-1)) as [Hi|Hi].
  - rewrite app_nil_r_s. unfold kept_footer.
    by rewrite (proj2 (Index_Contains _ _) Hsec).
  - destruct (Index_first exist end_marker Hi) as (a & b & _ & _ & -> & _).
    unfold kept_footer.
    change end_marker
      with (String "<"%char "!-- End of auto-generated section -->") in *.
    rewrite Index_app_fresh; [|done|done|apply prefix_app; by exists b].
    destruct (Z.eqb_spec (Z.of_nat (String.length sec)) (-1)); [lia|].
    by rewrite Nat2Z.id, slice_from_app.
Qed.

(** X10. Under the root, the directories skipped with all they hold are the
    directories env, version and vendor directly under it, no other: a
    directory of one of these names further down is walked. *)
Theorem walkFn_skips_top_level (sys : system) (root_Dir rest : string)
    (IsDir : bool) (files : gmap string string) :
  returns (walkFn sys root_Dir (root_Dir +:+ "/" +:+ rest) IsDir None files)
    = Some SkipDir
  ↔ IsDir = true ∧ rest ∈ ["env"; "version"; "vendor"].
Proof.
  unfold walkFn.
  rewrite TrimPrefix_app, (TrimPrefix_app "/" rest).
  destruct IsDir; cbn [negb]; [|split; [done|by intros [? _]]].
  destruct (String.eqb_spec rest "env") as [->|Henv];
    [split; [intros _; split; [done|set_solver] | done]|].
  destruct (String.eqb_spec rest "version") as [->|Hver];
    [split; [intros _; split; [done|set_solver] | done]|].
  destruct (String.eqb_spec rest "vendor") as [->|Hven];
    [split; [intros _; split; [done|set_solver] | done]|].
  cbn [orb]. split; [|intros [_ ?]; set_solver].
  unfold ReadFile, WriteFile.
  repeat case_match; simplify_eq/=; done.
Qed.

(** X11. A call changes no file but the README.md of the package of the
    directory, and this one only when the package has a doc comment, the
    directory has no file README, and the README.md is missing, empty or
    carries the header of the tool. *)
Theorem walkFn_touches_only_generated (sys : system) (root_Dir path : string)
    (IsDir : bool) (err : option error) (files : gmap string string) :
  let o := walkFn sys root_Dir path IsDir err files in
  files_after o ≠ files →
  ∃ pkg,
    Import sys path (pkgName_of sys root_Dir path) = inl pkg ∧
    Doc pkg ≠ "" ∧
    is_Some (Stat sys (Join sys (Dir pkg) "README")) ∧
    (∀ exist, files !! Join sys (Dir pkg) "README.md" = Some exist →
              exist = "" ∨ Contains exist header = true) ∧
    (∀ name, name ≠ Join sys (Dir pkg) "README.md" →
             files_after o !! name = files !! name).
Proof.
  cbv zeta. intros Hchanged.
  destruct (walkFn_cases sys root_Dir path IsDir err files)
    as [Hsame | (pkg & _ & _ & _ & Himp & Hdoc & Hstat & _ & Hown & _ & Ho)].
  { rewrite Hsame in Hchanged. done. }
  exists pkg. split_and!; try done.
  - intros exist Hfile. by rewrite Hfile in Hown.
  - intros name Hname. destruct Ho as [-> | (n & e & ->)]; simpl;
      by rewrite lookup_insert_ne.
Qed.

Lemma walkFn_touches_only_generated_witness :
  ∃ pkg,
    Import plain gomote_dir (pkgName_of plain build_root gomote_dir) = inl pkg ∧
    Doc pkg ≠ "" ∧
    is_Some (Stat plain (Join plain (Dir pkg) "README")) ∧
    (∀ exist, (∅ : gmap string string) !! Join plain (Dir pkg) "README.md"
                = Some exist →
              exist = "" ∨ Contains exist header = true) ∧
    (∀ name, name ≠ Join plain (Dir pkg) "README.md" →
             files_after (walkFn plain build_root gomote_dir true None ∅)
               !! name = (∅ : gmap string string) !! name).
Proof.
  apply (walkFn_touches_only_generated plain build_root gomote_dir true None ∅).
  intros Heq.
  apply (f_equal (λ m, m !! "/src/build/cmd/gomote/README.md")) in Heq.
  vm_compute in Heq. discriminate Heq.
Defined.



(** A write that fails at once leaves the README.md empty: the old
    contents are lost, nothing is logged and the walk ends on the error. *)
Example walkFn_disk_full :
  walkFn disk_full build_root gomote_dir true None with_footer
  = {| returns := Some (Failed "no space left on device");
       files_after := {[ "/src/build/cmd/gomote/README.md" := "" ]};
       logged := [] |}.
Proof. vm_compute. reflexivity. Qed.

(** X13. When a call writes the README.md and returns nil, what the file
    held from its first end marker on is carried over, byte for byte, to
    the end of what is written, after the generated section. When the
    write fails, the file is left with a beginning of these contents. *)
Theorem walkFn_keeps_footer (sys : system) (root_Dir path : string)
    (IsDir : bool) (err : option error) (files : gmap string string)
    (pkg : Package) (a b : string) :
  let o := walkFn sys root_Dir path IsDir err files in
  let readme := Join sys (Dir pkg) "README.md" in
  let whole := section (pkgName_of sys root_Dir path) (Doc pkg)
               +:+ end_marker +:+ b in
  Import sys path (pkgName_of sys root_Dir path) = inl pkg →
  files !! readme = Some (a +:+ end_marker +:+ b) →
  (∀ a' b', a +:+ end_marker +:+ b = a' +:+ end_marker +:+ b' →
            (String.length a ≤ String.length a')%nat) →
  files_after o ≠ files →
  (returns o = None → files_after o !! readme = Some whole) ∧
  (returns o ≠ None →
   ∃ n, files_after o !! readme = Some (slice_to whole n)).
Proof.
  cbv zeta. intros Himp Hfile Hfirst Hchanged.
  destruct (walkFn_cases sys root_Dir path IsDir err files)
    as [Hsame | (pkg' & _ & _ & _ & Himp' & _ & _ & _ & _ & _ & Ho)].
  { rewrite Hsame in Hchanged. done. }
  assert (pkg' = pkg) as -> by congruence.
  assert (Sprintf_readme header (pkgName_of sys root_Dir path)
            (pkgName_of sys root_Dir path) (pkgName_of sys root_Dir path)
            (Doc pkg)
            (kept_footer (default "" (files !! Join sys (Dir pkg) "README.md")))
          = section (pkgName_of sys root_Dir path) (Doc pkg)
            +:+ end_marker +:+ b) as Hwhole.
  { rewrite Hfile. simpl.
    rewrite Sprintf_readme_footer. unfold section. f_equal.
    unfold kept_footer.
    assert (Index (a +:+ end_marker +:+ b) end_marker ≠ -1) as Hi.
    { rewrite Index_Contains. intros Hc.
      assert (Contains (a +:+ end_marker +:+ b) end_marker = true);
        [|congruence].
      apply Contains_substring. by exists a, b. }
    destruct (Z.eqb_spec (Index (a +:+ end_marker +:+ b) end_marker) (-1));
      [done|].
    destruct (Index_first _ _ Hi) as (a0 & b0 & Heq & _ & -> & Hmin).
    assert (String.length a = String.length a0) as Hlen.
    { apply Nat.le_antisymm; [by apply (Hfirst a0 b0)|by apply (Hmin a b)]. }
    by destruct (app_inj_length _ _ _ _ Heq Hlen) as [_ <-]. }
  rewrite Hwhole in Ho.
  destruct Ho as [-> | (n & e & ->)]; simpl; rewrite lookup_insert_eq.
  - done.
  - split; [done|]. intros _. by exists n.
Qed.

Lemma walkFn_keeps_footer_witness :
  files_after (walkFn plain build_root gomote_dir true None with_footer)
    !! "/src/build/cmd/gomote/README.md"
  = Some (section "golang.org/x/build/cmd/gomote"
            "The gomote command is a client for the Go builder."
          +:+ end_marker +:+ owner_text).
Proof.
  apply (walkFn_keeps_footer plain build_root gomote_dir true None with_footer
           {| Doc := "The gomote command is a client for the Go builder.";
              Dir := gomote_dir |} old_section owner_text).
  - vm_compute. reflexivity.
  - vm_compute. reflexivity.
  - intros a' b' Heq.
    assert (Index (old_section +:+ end_marker +:+ owner_text) end_marker ≠ -1)
      as Hi by (vm_compute; discriminate).
    destruct (Index_first _ _ Hi) as (a0 & b0 & _ & Hlen & _ & Hmin).
    specialize (Hmin a' b' Heq).
    assert (Index (old_section +:+ end_marker +:+ owner_text) end_marker
            = Z.of_nat (String.length old_section)) as Hidx
      by (vm_compute; reflexivity).
    lia.
  - intros Heq.
    apply (f_equal (λ m, m !! "/src/build/cmd/gomote/README.md")) in Heq.
    vm_compute in Heq. discriminate Heq.
  - vm_compute. reflexivity.
Defined.

(** X14. Of a README.md without the end marker nothing is kept: what a
    call that returns nil has written, there or where no README.md was, is
    the generated section and no more. When the write fails, the file is
    left with a beginning of the generated section. *)
Theorem walkFn_without_marker (sys : system) (root_Dir path : string)
    (IsDir : bool) (err : option error) (files : gmap string string)
    (pkg : Package) :
  let o := walkFn sys root_Dir path IsDir err files in
  let readme := Join sys (Dir pkg) "README.md" in
  let whole := section (pkgName_of sys root_Dir path) (Doc pkg) in
  Import sys path (pkgName_of sys root_Dir path) = inl pkg →
  (∀ exist, files !! readme = Some exist →
            Contains exist end_marker = false) →
  files_after o ≠ files →
  (returns o = None → files_after o !! readme = Some whole) ∧
  (returns o ≠ None →
   ∃ n, files_after o !! readme = Some (slice_to whole n)).
Proof.
  cbv zeta. intros Himp Hfile Hchanged.
  destruct (walkFn_cases sys root_Dir path IsDir err files)
    as [Hsame | (pkg' & _ & _ & _ & Himp' & _ & _ & _ & _ & _ & Ho)].
  { rewrite Hsame in Hchanged. done. }
  assert (pkg' = pkg) as -> by congruence.
  assert (kept_footer (default "" (files !! Join sys (Dir pkg) "README.md"))
          = "") as Hfooter.
  { unfold kept_footer.
    assert (Index (default "" (files !! Join sys (Dir pkg) "README.md"))
                  end_marker = -1) as ->; [|done].
    apply Index_Contains.
    destruct (files !! Join sys (Dir pkg) "README.md") as [exist|] eqn:Hf;
      [by apply Hfile | done]. }
  rewrite Hfooter in Ho. fold (section (pkgName_of sys root_Dir path) (Doc pkg)) in Ho.
  destruct Ho as [-> | (n & e & ->)]; simpl; rewrite lookup_insert_eq.
  - done.
  - split; [done|]. intros _. by exists n.
Qed.

Lemma walkFn_without_marker_witness :
  files_after (walkFn plain build_root gomote_dir true None ∅)
    !! "/src/build/cmd/gomote/README.md"
  = Some (section "golang.org/x/build/cmd/gomote"
            "The gomote command is a client for the Go builder.").
Proof.
  apply (walkFn_without_marker plain build_root gomote_dir true None ∅
           {| Doc := "The gomote command is a client for the Go builder.";
              Dir := gomote_dir |}).
  - vm_compute. reflexivity.
  - intros exist Hf. rewrite lookup_empty in Hf. discriminate Hf.
  - intros Heq.
    apply (f_equal (λ m, m !! "/src/build/cmd/gomote/README.md")) in Heq.
    vm_compute in Heq. discriminate Heq.
  - vm_compute. reflexivity.
Defined.

(** X15. Run again on the files it left, with the same package, a call that
    returned nil writes nothing and logs nothing, when the end marker does
    not occur in the generated section: the name and the doc comment of
    the package. *)
Theorem walkFn_idempotent (sys : system) (root_Dir path : string)
    (IsDir : bool) (err : option error) (files : gmap string string) :
  let o := walkFn sys root_Dir path IsDir err files in
  returns o = None →
  (∀ pkg, Import sys path (pkgName_of sys root_Dir path) = inl pkg →
          Contains (section (pkgName_of sys root_Dir path) (Doc pkg))
                   end_marker = false) →
  walkFn sys root_Dir path IsDir err (files_after o)
    = leave None (files_after o).
Proof.
  cbv zeta. intros Hret Hmarker.
  destruct (walkFn_cases sys root_Dir path IsDir err files)
    as [Hsame | (pkg & -> & -> & Hskip & Himp & Hdoc & [e Hstat] & Hfault
                 & _ & _ & [Ho | (n & e' & Ho)])].
  { assert (files_after (walkFn sys root_Dir path IsDir err files) = files)
      as -> by (by rewrite Hsame).
    by rewrite Hsame, Hret. }
  2:{ by rewrite Ho in Hret. }
  rewrite Ho. cbn [files_after].
  set (exist := default "" (files !! Join sys (Dir pkg) "README.md")).
  unfold walkFn. fold (pkgName_of sys root_Dir path).
  set (p := pkgName_of sys root_Dir path) in *.
  set (new := Sprintf_readme header p p p (Doc pkg) (kept_footer exist)).
  cbv zeta in Hskip. rewrite Hskip, Himp.
  cbn [negb]. rewrite (proj2 (String.eqb_neq _ _) Hdoc), Hstat.
  unfold ReadFile. rewrite Hfault, lookup_insert_eq.
  assert (Contains new header = true) as -> by apply Sprintf_readme_header.
  rewrite andb_false_r.
  assert ((if negb (Index new end_marker =? -1)
           then slice_from new (Z.to_nat (Index new end_marker)) else "")
          = kept_footer new) as ->
    by (unfold kept_footer; by destruct (_ =? _)).
  assert (kept_footer new = kept_footer exist) as ->.
  { unfold new. rewrite Sprintf_readme_footer.
    apply kept_footer_stable, Hmarker, Himp. }
  fold new. by rewrite String.eqb_refl.
Qed.

Lemma walkFn_idempotent_witness :
  walkFn plain build_root gomote_dir true None
    (files_after (walkFn plain build_root gomote_dir true None with_footer))
  = leave None
      (files_after (walkFn plain build_root gomote_dir true None with_footer)).
Proof.
  apply (walkFn_idempotent plain build_root gomote_dir true None with_footer).
  - vm_compute. reflexivity.
  - intros pkg Himp. vm_compute in Himp. injection Himp as <-.
    vm_compute. reflexivity.
Defined.

(** The condition on the end marker is needed: with a doc comment that
    holds it, a second run writes again, and more. *)
Example walkFn_marker_in_doc :
  let sys :=
    {| ToSlash := λ s, s; Join := λ dir name, dir +:+ "/" +:+ name;
       Import := λ dir _,
         inl {| Doc := "Uses <!-- End of auto-generated section --> lines.";
                Dir := dir |};
       Stat := λ _, Some "no such file or directory";
       read_fault := λ _, None; write_fault := λ _, None |} in
  let o1 := walkFn sys build_root gomote_dir true None ∅ in
  let o2 := walkFn sys build_root gomote_dir true None (files_after o1) in
  logged o2 = ["Wrote /src/build/cmd/gomote/README.md"] ∧
  files_after o2 ≠ files_after o1.
Proof.
  cbv zeta. split; [vm_compute; reflexivity|].
  intros Heq.
  apply (f_equal (λ m, String.length <$>
                         m !! "/src/build/cmd/gomote/README.md")) in Heq.
  vm_compute in Heq. discriminate Heq.
Qed.
End readmes.
